(** * native-lib.cpp: marshalling a Java string array into a native argv

    A shallow embedding of
    [Java_com_sillytavern_apk_MainActivity_startNodeWithArguments]
    (android/app/src/main/cpp/native-lib.cpp) and the properties of it
    that the specification states.

    The function is straight-line C++ around two [for] loops.  It talks
    to three collaborators: the JNI environment (string conversion), the
    C allocator ([calloc], [free]) and the embedded runtime
    ([node::Start]).  They are the fields of a [world]; the function
    itself is a computation in a small state-and-fault monad whose state
    is the heap block behind [args_buffer] and the log of the calls made
    so far. *)

From Stdlib Require Import ZArith Lia.
From Stdlib Require Import Strings.Byte Strings.String.
From stdpp Require Import base list sorting.

Local Open Scope Z_scope.

(** ** Machine integers *)

(** [int], [jint] and [jsize] are 32-bit two's complement, and [int]
    arithmetic wraps around, as the compiled code does.  [size_t] is
    unsigned; it is taken 64 bits wide, which only matters when a
    negative [int] is converted to it. *)
Definition INT_MAX : Z := 2147483647.
Definition INT_MIN : Z := -2147483648.

(** [static_cast<int>(z)], and the value an [int] expression takes when
    its mathematical value is [z]. *)
Definition to_int (z : Z) : Z := (z + 2 ^ 31) mod 2 ^ 32 - 2 ^ 31.

(** [a + b] on [int]. *)
Definition int_add (a b : Z) : Z := to_int (a + b).

(** The implicit conversion of an [int] argument to [size_t]. *)
Definition to_size_t (z : Z) : Z := z mod 2 ^ 64.

(** ** C strings *)

Definition NUL : byte := x00.

(** [strlen]: the number of bytes before the first NUL.  A [list byte]
    stands for the characters of a buffer that ends with a terminator of
    its own, so running off the list is reaching that terminator. *)
Fixpoint strlen (s : list byte) : nat :=
  match s with
  | [] => 0%nat
  | c :: s' => if Byte.eqb c NUL then 0%nat else S (strlen s')
  end.

(** The null-terminated string that starts at the head of [cells]: the
    bytes before the first NUL, or [None] when the cells end before any
    NUL is met (the read would leave the block). *)
Fixpoint cstr_at (cells : list byte) : option (list byte) :=
  match cells with
  | [] => None
  | c :: cells' =>
      if Byte.eqb c NUL then Some []
      else match cstr_at cells' with
           | Some s => Some (c :: s)
           | None => None
           end
  end.

(** ** The collaborators *)

(** A [jstring] is an opaque JNI reference. *)
Definition jstring : Type := Z.

(** A null pointer. *)
Definition NULL : Z := 0.

(** The two loops of the function.  Each converts every argument anew,
    and the JNI answers each request on its own: it hands out a fresh
    copy of the characters, or null when it cannot. *)
Inductive pass : Type := SizePass | CopyPass.

(** The single heap block of the function: [calloc]'s result. *)
Record block : Type := Block { base : Z; cells : list byte }.

Record world : Type := World {
  (** [env->GetStringUTFChars(arg, nullptr)] as the given loop sees it:
      the modified UTF-8 characters, or [None] for a null result. *)
  GetStringUTFChars : pass -> jstring -> option (list byte);
  (** [calloc(n, 1)]: the address of a fresh zeroed block of [n] bytes,
      or [None] for a null result. *)
  libc_calloc : Z -> option Z;
  (** [node::Start(argc, argv)], which may read the heap through [argv]. *)
  node_Start : Z -> list Z -> option block -> Z
}.

(** ** The machine *)

(** The calls the function makes and the writes it attempts, with their
    arguments and, for [calloc] and [node::Start], their results.  The
    JNI calls carry the loop that made them. *)
Inductive event : Type :=
| EGetArrayLength
| EGetObjectArrayElement (p : pass) (i : Z)
| EGetStringUTFChars (p : pass) (arg : jstring)
| EReleaseStringUTFChars (p : pass) (arg : jstring)
| EDeleteLocalRef (p : pass) (arg : jstring)
| ECalloc (nmemb : Z) (ret : Z)
| EMemcpy (dst : Z) (n : Z)
| EStore (dst : Z)
| ENodeStart (argc : Z) (argv : list Z) (ret : Z)
| EFree (ptr : Z).

Record machine : Type := Machine {
  heap : option block;   (* the live block behind args_buffer, if any *)
  log : list event       (* the calls made so far, oldest first *)
}.

Definition boot : machine := {| heap := None; log := [] |}.

(** An access that ends the run: through a null pointer (page zero is
    not mapped, the process is killed), or outside the block (undefined
    behaviour; the model stops at the first such access). *)
Inductive fault : Type := NullPointer | OutOfBounds.

Inductive result (A : Type) : Type :=
| Done (a : A)
| Crash (f : fault).
Arguments Done {A} a.
Arguments Crash {A} f.

Definition M (A : Type) : Type := machine -> result A * machine.

Definition ret {A} (a : A) : M A := fun m => (Done a, m).

Definition bind {A B} (c : M A) (k : A -> M B) : M B :=
  fun m =>
    match c m with
    | (Done a, m') => k a m'
    | (Crash f, m') => (Crash f, m')
    end.

Definition crash {A} (f : fault) : M A := fun m => (Crash f, m).

Definition emit (e : event) : M unit :=
  fun m => (Done tt, {| heap := heap m; log := log m ++ [e] |}).

Declare Scope m_scope.
Delimit Scope m_scope with M.
Notation "x <- c ;; k" := (bind c (fun x => k))
  (at level 100, c at next level, right associativity) : m_scope.
Notation "c ;; k" := (bind c (fun _ => k))
  (at level 100, right associativity) : m_scope.
Local Open Scope m_scope.

(** ** The primitives the function calls *)

Definition jni_GetArrayLength (arguments : list jstring) : M Z :=
  emit EGetArrayLength ;; ret (Z.of_nat (length arguments)).

Definition jni_GetStringUTFChars (w : world) (p : pass) (arg : jstring)
  : M (option (list byte)) :=
  emit (EGetStringUTFChars p arg) ;; ret (GetStringUTFChars w p arg).

(** [strlen(arg_chars)]; reading through a null pointer faults. *)
Definition c_strlen (arg_chars : option (list byte)) : M Z :=
  match arg_chars with
  | None => crash NullPointer
  | Some s => ret (Z.of_nat (strlen s))
  end.

(** [calloc(nmemb, sizeof(char))]. *)
Definition calloc (w : world) (nmemb : Z) : M Z :=
  fun m =>
    match libc_calloc w nmemb with
    | Some b =>
        (Done b,
         {| heap := Some {| base := b; cells := replicate (Z.to_nat nmemb) NUL |};
            log := log m ++ [ECalloc nmemb b] |})
    | None =>
        (Done NULL, {| heap := None; log := log m ++ [ECalloc nmemb NULL] |})
    end.

(** Overwrite [length bs] cells from index [off] on. *)
Definition splice (off : nat) (bs cells : list byte) : list byte :=
  take off cells ++ bs ++ drop (off + length bs) cells.

(** A write of [bs] at address [dst]: through a pointer that belongs to
    no block (here: one derived from a null [args_buffer]) it faults with
    [NullPointer].  The function has no bounds test; a write outside the
    block is where the model stops, with [OutOfBounds], and what the
    function does after such a write is not modelled. *)
Definition write (dst : Z) (bs : list byte) : M unit :=
  fun m =>
    match heap m with
    | None => (Crash NullPointer, m)
    | Some b =>
        if bool_decide (base b <= dst /\
                        dst + Z.of_nat (length bs)
                          <= base b + Z.of_nat (length (cells b)))
        then (Done tt,
              {| heap := Some {| base := base b;
                                 cells := splice (Z.to_nat (dst - base b)) bs (cells b) |};
                 log := log m |})
        else (Crash OutOfBounds, m)
    end.

(** [memcpy(dst, src, n)]. *)
Definition memcpy (dst : Z) (src : option (list byte)) (n : Z) : M unit :=
  emit (EMemcpy dst n) ;;
  match src with
  | None => crash NullPointer
  | Some s => write dst (take (Z.to_nat n) s)
  end.

(** [dst[0] = c]. *)
Definition store (dst : Z) (c : byte) : M unit :=
  emit (EStore dst) ;; write dst [c].

(** [node::Start(argc, argv)]. *)
Definition call_node_Start (w : world) (argc : Z) (argv : list Z) : M Z :=
  fun m =>
    let r := node_Start w argc argv (heap m) in
    (Done r, {| heap := heap m; log := log m ++ [ENodeStart argc argv r] |}).

(** [free(ptr)]. *)
Definition free (ptr : Z) : M unit :=
  fun m => (Done tt, {| heap := None; log := log m ++ [EFree ptr] |}).

(** ** The function *)

(** Lines 16-22: the first loop, from index [i] on, with the running
    value of [c_arguments_size].  [arguments] is what is left of the
    array; [GetObjectArrayElement(arguments, i)] is its head. *)
Fixpoint size_pass (w : world) (i : Z) (arguments : list jstring)
    (c_arguments_size : Z) : M Z :=
  match arguments with
  | [] => ret c_arguments_size
  | arg :: rest =>
      emit (EGetObjectArrayElement SizePass i) ;;
      arg_chars <- jni_GetStringUTFChars w SizePass arg ;;
      len <- c_strlen arg_chars ;;
      let c_arguments_size := int_add c_arguments_size (int_add (to_int len) 1) in
      emit (EReleaseStringUTFChars SizePass arg) ;;
      emit (EDeleteLocalRef SizePass arg) ;;
      size_pass w (i + 1) rest c_arguments_size
  end.

(** Lines 28-40: the second loop, from index [i] on, with the write
    cursor [current] and the array [argv]. *)
Fixpoint copy_pass (w : world) (i : Z) (arguments : list jstring)
    (current : Z) (argv : list Z) : M (Z * list Z) :=
  match arguments with
  | [] => ret (current, argv)
  | arg :: rest =>
      emit (EGetObjectArrayElement CopyPass i) ;;
      arg_chars <- jni_GetStringUTFChars w CopyPass arg ;;
      arg_length <- c_strlen arg_chars ;;
      memcpy current arg_chars arg_length ;;
      store (current + arg_length) NUL ;;
      let argv := <[Z.to_nat i := current]> argv in
      let current := current + (arg_length + 1) in
      emit (EReleaseStringUTFChars CopyPass arg) ;;
      emit (EDeleteLocalRef CopyPass arg) ;;
      copy_pass w (i + 1) rest current argv
  end.

(** Lines 13-40: everything before the call of the runtime.  The result
    is [argument_count], [args_buffer], the final [current] and [argv]. *)
Definition marshal (w : world) (arguments : list jstring)
  : M (Z * Z * Z * list Z) :=
  argument_count <- jni_GetArrayLength arguments ;;
  c_arguments_size <- size_pass w 0 arguments 0 ;;
  args_buffer <- calloc w (to_size_t c_arguments_size) ;;
  r <- copy_pass w 0 arguments args_buffer
         (replicate (Z.to_nat argument_count) NULL) ;;
  ret (argument_count, args_buffer, fst r, snd r).

(** Lines 13-45.  [static_cast<jint>] of an [int] changes nothing. *)
Definition startNodeWithArguments (w : world) (arguments : list jstring)
  : M Z :=
  r <- marshal w arguments ;;
  let '(argument_count, args_buffer, _, argv) := r in
  result <- call_node_Start w argument_count argv ;;
  free args_buffer ;;
  ret result.

(** ** Reading the buffer back *)

(** The null-terminated string at address [p], as the callee reads it. *)
Definition read_cstr (h : option block) (p : Z) : option (list byte) :=
  match h with
  | None => None
  | Some b =>
      if bool_decide (base b <= p < base b + Z.of_nat (length (cells b)))
      then cstr_at (drop (Z.to_nat (p - base b)) (cells b))
      else None
  end.

(** The byte at address [p]. *)
Definition read_byte (h : option block) (p : Z) : option byte :=
  match h with
  | None => None
  | Some b =>
      if bool_decide (base b <= p) then cells b !! Z.to_nat (p - base b)
      else None
  end.

(** ** What the buffer should hold *)

(** The characters of a C string: what lies before its terminator. *)
Definition c_string (s : list byte) : list byte := take (strlen s) s.

(** A string that [GetStringUTFChars] can produce: modified UTF-8 has no
    zero byte inside. *)
Definition well_formed (s : list byte) : Prop := Forall (fun c => c <> NUL) s.

(** The bytes one argument occupies: its characters and a terminator. *)
Definition slot_size (s : list byte) : Z := Z.of_nat (strlen s) + 1.

Fixpoint total_size (ss : list (list byte)) : Z :=
  match ss with
  | [] => 0
  | s :: ss' => slot_size s + total_size ss'
  end.

(** All slots back to back. *)
Fixpoint packed (ss : list (list byte)) : list byte :=
  match ss with
  | [] => []
  | s :: ss' => (c_string s ++ [NUL]) ++ packed ss'
  end.

(** The addresses of the slots when the first one starts at [start]. *)
Fixpoint offsets (start : Z) (ss : list (list byte)) : list Z :=
  match ss with
  | [] => []
  | s :: ss' => start :: offsets (start + slot_size s) ss'
  end.

(** A list of pointers none of which is null. *)
Fixpoint all_some {A : Type} (l : list (option A)) : option (list A) :=
  match l with
  | [] => Some []
  | None :: _ => None
  | Some x :: l' =>
      match all_some l' with
      | None => None
      | Some xs => Some (x :: xs)
      end
  end.

(** The conversions of a whole array in one pass, when none is null. *)
Definition chars_of (w : world) (p : pass) (arguments : list jstring)
  : option (list (list byte)) :=
  all_some (map (GetStringUTFChars w p) arguments).

(** ** The phases of a run *)

Inductive phase : Type := Sizing | Allocation | Copying | Invocation | Release.

Definition pass_phase (p : pass) : phase :=
  match p with SizePass => Sizing | CopyPass => Copying end.

(** The phase a logged call belongs to. *)
Definition phase_of (e : event) : phase :=
  match e with
  | EGetArrayLength => Sizing
  | EGetObjectArrayElement p _ => pass_phase p
  | EGetStringUTFChars p _ => pass_phase p
  | EReleaseStringUTFChars p _ => pass_phase p
  | EDeleteLocalRef p _ => pass_phase p
  | ECalloc _ _ => Allocation
  | EMemcpy _ _ => Copying
  | EStore _ => Copying
  | ENodeStart _ _ _ => Invocation
  | EFree _ => Release
  end.

Definition rank (ph : phase) : nat :=
  match ph with
  | Sizing => 1 | Allocation => 2 | Copying => 3 | Invocation => 4 | Release => 5
  end.

Definition sizing (e : event) : Prop := phase_of e = Sizing.
Definition copying (e : event) : Prop := phase_of e = Copying.

(** ** Shorthands for machines *)

(** The machine after more calls were logged. *)
Definition logged (m : machine) (evs : list event) : machine :=
  {| heap := heap m; log := log m ++ evs |}.

(** The machine after the block was overwritten and more calls logged. *)
Definition stored (m : machine) (b : block) (cs : list byte)
    (evs : list event) : machine :=
  {| heap := Some {| base := base b; cells := cs |}; log := log m ++ evs |}.

(** The size the function asks [calloc] for when the first loop saw the
    strings [ss]. *)
Definition buffer_size (ss : list (list byte)) : Z :=
  to_size_t (to_int (total_size ss)).

(** The pointer [calloc] returns and the machine it leaves. *)
Definition after_calloc (w : world) (nmemb : Z) (m : machine) : Z * machine :=
  match libc_calloc w nmemb with
  | Some b =>
      (b, {| heap := Some {| base := b; cells := replicate (Z.to_nat nmemb) NUL |};
             log := log m ++ [ECalloc nmemb b] |})
  | None => (NULL, {| heap := None; log := log m ++ [ECalloc nmemb NULL] |})
  end.

(** ** The order of the calls *)

(** A log in which no call of a later phase comes before a call of an
    earlier one. *)
Definition in_order (l : list event) : Prop :=
  StronglySorted (fun e1 e2 => (rank (phase_of e1) <= rank (phase_of e2))%nat) l.

(** Every call of phase [ph1] comes strictly before every call of [ph2]. *)
Definition precedes (l : list event) (ph1 ph2 : phase) : Prop :=
  forall (i j : nat) (e1 e2 : event),
    l !! i = Some e1 -> l !! j = Some e2 ->
    phase_of e1 = ph1 -> phase_of e2 = ph2 -> (i < j)%nat.

(** Calls made before the runtime is entered. *)
Definition before_call (e : event) : Prop := (rank (phase_of e) < 4)%nat.

(** ** Writes and the block *)

(** A logged write that stays within the addresses [lo] (included) to
    [hi] (excluded). *)
Definition inside (lo hi : Z) (e : event) : Prop :=
  match e with
  | EMemcpy dst n => lo <= dst /\ dst + n <= hi
  | EStore dst => lo <= dst /\ dst + 1 <= hi
  | _ => True
  end.

(** ** Two runs on the same bytes *)

(** The two arrays convert, element by element and in each loop, to the
    same results. *)
Definition same_bytes (w1 : world) (arguments1 : list jstring)
    (w2 : world) (arguments2 : list jstring) : Prop :=
  forall p, map (GetStringUTFChars w1 p) arguments1
            = map (GetStringUTFChars w2 p) arguments2.

(** The strings the callee finds behind [argv]. *)
Definition argv_strings (h : option block) (argv : list Z)
  : list (option (list byte)) :=
  map (read_cstr h) argv.

(** The bytes of the block, if there is one. *)
Definition buffer_bytes (h : option block) : list byte :=
  match h with
  | Some b => cells b
  | None => []
  end.

(** The two runtimes are one function of the count and of the strings
    behind [argv]. *)
Definition same_runtime (w1 w2 : world) : Prop :=
  forall argc argv1 h1 argv2 h2,
    argv_strings h1 argv1 = argv_strings h2 argv2 ->
    node_Start w1 argc argv1 h1 = node_Start w2 argc argv2 h2.

(** The two allocators succeed on the same requests (the addresses they
    return may differ). *)
Definition same_allocator_verdict (w1 w2 : world) : Prop :=
  forall n, is_Some (libc_calloc w1 n) <-> is_Some (libc_calloc w2 n).

(** ** Worlds for the examples *)

(** A world for examples: reference 1 is "node", reference 2 is
    "--version", any other reference converts to null; [calloc] returns
    address 4096; the runtime returns its argument count. *)
Definition sample_world : world :=
  {| GetStringUTFChars := fun _ arg =>
       if arg =? 1 then Some (list_byte_of_string "node")
       else if arg =? 2 then Some (list_byte_of_string "--version")
       else None;
     libc_calloc := fun _ => Some 4096;
     node_Start := fun argc _ _ => argc |}.


(** A world in which the second conversion of a string fails. *)
Definition flaky_world : world :=
  {| GetStringUTFChars := fun p _ =>
       match p with
       | SizePass => Some (list_byte_of_string "a")
       | CopyPass => None
       end;
     libc_calloc := fun _ => Some 4096;
     node_Start := fun _ _ _ => 0 |}.

(** A runtime that returns the length of the string behind [argv[0]]. *)
Definition first_length (argc : Z) (argv : list Z) (h : option block) : Z :=
  match argv_strings h argv with
  | Some s :: _ => Z.of_nat (length s)
  | _ => -1
  end.

(** Two worlds with the same strings under different references and
    with different block addresses. *)
Definition world_a : world :=
  {| GetStringUTFChars := GetStringUTFChars sample_world;
     libc_calloc := fun _ => Some 4096;
     node_Start := first_length |}.

Definition world_b : world :=
  {| GetStringUTFChars := fun p arg => GetStringUTFChars sample_world p (arg - 6);
     libc_calloc := fun _ => Some 8192;
     node_Start := first_length |}.

(** A world in which a string has grown between the two loops. *)
Definition growing_world : world :=
  {| GetStringUTFChars := fun p _ =>
       match p with
       | SizePass => Some (list_byte_of_string "a")
       | CopyPass => Some (list_byte_of_string "abc")
       end;
     libc_calloc := fun _ => Some 4096;
     node_Start := fun _ _ _ => 0 |}.

(** A string of 2^20 - 1 letters, and an array that refers to it 4096
    times: its slots add up to 2^32 bytes. *)
Definition big_string : list byte := replicate (Z.to_nat 1048575) "a"%byte.

Definition big_arguments : list jstring := replicate 4096 1.

(** A world in which every reference is [big_string], in both loops, and
    the allocator grants every request. *)
Definition big_world : world :=
  {| GetStringUTFChars := fun _ _ => Some big_string;
     libc_calloc := fun _ => Some 4096;
     node_Start := fun _ _ _ => 0 |}.

(** ** The JNI resources in flight *)

(** What the function holds of the JNI at a point of its log: nothing; a
    local reference ([GetObjectArrayElement]'s result); that reference
    and the characters of the string [arg]; or the reference alone again,
    once the characters were released. *)
Inductive jni_state : Type :=
| Idle
| Ref
| Chars (arg : jstring)
| Released (arg : jstring).

(** The effect of one logged call on what is held, or [None] when the
    call breaks the discipline: a second reference or string acquired
    while one is held, characters read ([memcpy]) or released that are
    not held, a reference deleted while its characters are held, or
    [calloc], [node::Start] or [free] called while anything is held. *)
Definition jni_step (st : jni_state) (e : event) : option jni_state :=
  match st, e with
  | Idle, EGetArrayLength => Some Idle
  | Idle, EGetObjectArrayElement _ _ => Some Ref
  | Ref, EGetStringUTFChars _ arg => Some (Chars arg)
  | Chars a, EMemcpy _ _ => Some (Chars a)
  | Chars a, EStore _ => Some (Chars a)
  | Chars a, EReleaseStringUTFChars _ arg =>
      if a =? arg then Some (Released a) else None
  | Released a, EDeleteLocalRef _ arg =>
      if a =? arg then Some Idle else None
  | Idle, ECalloc _ _ => Some Idle
  | Idle, ENodeStart _ _ _ => Some Idle
  | Idle, EFree _ => Some Idle
  | _, _ => None
  end.

Fixpoint jni_run (st : jni_state) (l : list event) : option jni_state :=
  match l with
  | [] => Some st
  | e :: l' =>
      match jni_step st e with
      | Some st' => jni_run st' l'
      | None => None
      end
  end.

(** ** The elements a run visits *)

(** The array indices fetched, and the references converted, in the
    order of the log and with the loop that did it. *)
Definition fetches (l : list event) : list (pass * Z) :=
  omap (fun e => match e with
                 | EGetObjectArrayElement p i => Some (p, i)
                 | _ => None
                 end) l.

Definition conversions (l : list event) : list (pass * jstring) :=
  omap (fun e => match e with
                 | EGetStringUTFChars p arg => Some (p, arg)
                 | _ => None
                 end) l.

(** ** Proof tools *)

#[local] Arguments to_int : simpl never.
#[local] Arguments to_size_t : simpl never.
#[local] Arguments Z.add : simpl never.
#[local] Arguments Z.sub : simpl never.
#[local] Arguments Z.of_nat : simpl never.
#[local] Arguments Z.to_nat : simpl never.

(** Bring a log to the form [e1 :: l1 ++ e2 :: l2 ++ ...]. *)
Ltac norm_log := simpl; repeat (rewrite <- !app_assoc; simpl).

(** ** Machine integers: facts *)

Lemma to_int_small (z : Z) : INT_MIN <= z <= INT_MAX -> to_int z = z.
Proof.
  unfold INT_MIN, INT_MAX, to_int. intros Hz.
  rewrite Z.mod_small by lia. lia.
Qed.

Lemma to_int_add_r (a b : Z) : to_int (a + to_int b) = to_int (a + b).
Proof.
  unfold to_int.
  replace (a + ((b + 2 ^ 31) mod 2 ^ 32 - 2 ^ 31) + 2 ^ 31)
    with (a + (b + 2 ^ 31) mod 2 ^ 32) by lia.
  rewrite Z.add_mod_idemp_r by lia.
  do 2 f_equal. lia.
Qed.

Lemma to_int_add_l (a b : Z) : to_int (to_int a + b) = to_int (a + b).
Proof. rewrite (Z.add_comm (to_int a)), to_int_add_r. f_equal. lia. Qed.

Lemma to_int_range (z : Z) : INT_MIN <= to_int z <= INT_MAX.
Proof.
  unfold INT_MIN, INT_MAX, to_int.
  pose proof (Z.mod_pos_bound (z + 2 ^ 31) (2 ^ 32)). lia.
Qed.

Lemma to_size_t_small (z : Z) : 0 <= z <= INT_MAX -> to_size_t z = z.
Proof.
  unfold INT_MAX, to_size_t. intros Hz. apply Z.mod_small. lia.
Qed.

(** ** C strings: facts *)

Lemma strlen_le (s : list byte) : (strlen s <= length s)%nat.
Proof.
  induction s as [|c s IH]; simpl; [lia|].
  destruct (Byte.eqb c NUL); simpl; lia.
Qed.

Lemma strlen_well_formed (s : list byte) :
  well_formed s -> strlen s = length s.
Proof.
  induction 1 as [|c s Hc _ IH]; simpl; [reflexivity|].
  destruct (Byte.eqb c NUL) eqn:E.
  - apply byte_dec_bl in E. contradiction.
  - now rewrite IH.
Qed.

Lemma c_string_well_formed (s : list byte) : well_formed s -> c_string s = s.
Proof.
  intros H. unfold c_string. rewrite (strlen_well_formed s H).
  apply firstn_all.
Qed.

Lemma length_c_string (s : list byte) : length (c_string s) = strlen s.
Proof.
  unfold c_string. rewrite length_take. pose proof (strlen_le s). lia.
Qed.

(** Reading back a slot gives the characters that were put there,
    whatever follows the terminator. *)
Lemma cstr_at_slot (s rest : list byte) :
  cstr_at ((c_string s ++ [NUL]) ++ rest) = Some (c_string s).
Proof.
  unfold c_string. induction s as [|c s IH]; simpl; [reflexivity|].
  destruct (Byte.eqb c NUL) eqn:E; simpl.
  - reflexivity.
  - rewrite E, IH. reflexivity.
Qed.

(** ** The layout: facts *)

Lemma slot_size_pos (s : list byte) : 0 < slot_size s.
Proof. unfold slot_size. lia. Qed.

Lemma total_size_nonneg (ss : list (list byte)) : 0 <= total_size ss.
Proof.
  induction ss as [|s ss IH]; simpl; [lia|].
  pose proof (slot_size_pos s). lia.
Qed.

Lemma total_size_app (ss1 ss2 : list (list byte)) :
  total_size (ss1 ++ ss2) = total_size ss1 + total_size ss2.
Proof. induction ss1 as [|s ss1 IH]; simpl; lia. Qed.

Lemma length_packed (ss : list (list byte)) :
  Z.of_nat (length (packed ss)) = total_size ss.
Proof.
  induction ss as [|s ss IH]; simpl; [reflexivity|].
  rewrite !length_app, length_c_string. simpl. unfold slot_size. lia.
Qed.

Lemma length_offsets (start : Z) (ss : list (list byte)) :
  length (offsets start ss) = length ss.
Proof.
  revert start. induction ss as [|s ss IH]; intros start; simpl; [reflexivity|].
  now rewrite IH.
Qed.

(** Slot [i] starts after the slots before it. *)
Lemma lookup_offsets (start : Z) (ss : list (list byte)) (i : nat) :
  (i < length ss)%nat ->
  offsets start ss !! i = Some (start + total_size (take i ss)).
Proof.
  revert start i. induction ss as [|s ss IH]; intros start i Hi; simpl in *; [lia|].
  destruct i as [|i]; simpl.
  - f_equal. lia.
  - rewrite IH by lia. f_equal. lia.
Qed.

(** Skipping the first [i] slots of the packed bytes leaves the others. *)
Lemma drop_packed (ss : list (list byte)) (i : nat) :
  drop (Z.to_nat (total_size (take i ss))) (packed ss) = packed (drop i ss).
Proof.
  revert i. induction ss as [|s ss IH]; intros i.
  - destruct i; reflexivity.
  - destruct i as [|i]; [reflexivity|]. simpl take. simpl total_size.
    simpl packed. simpl drop at 2.
    rewrite <- IH.
    pose proof (total_size_nonneg (take i ss)) as Hnn.
    rewrite Z2Nat.inj_add by (pose proof (slot_size_pos s); lia).
    rewrite <- drop_drop. f_equal.
    replace (Z.to_nat (slot_size s)) with (length (c_string s ++ [NUL])).
    + apply drop_app_length.
    + rewrite length_app, length_c_string. simpl. unfold slot_size. lia.
Qed.

(** ** One turn of each loop *)

Lemma logged_logged (m : machine) (evs1 evs2 : list event) :
  logged (logged m evs1) evs2 = logged m (evs1 ++ evs2).
Proof. unfold logged. simpl. now rewrite <- app_assoc. Qed.

Lemma int_add_slot (c : Z) (s : list byte) :
  int_add c (int_add (to_int (Z.of_nat (strlen s))) 1) = to_int (c + slot_size s).
Proof.
  unfold int_add, slot_size. now rewrite to_int_add_l, to_int_add_r.
Qed.

(** One turn of the first loop. *)
Lemma size_pass_cons (w : world) (i : Z) (arg : jstring) (rest : list jstring)
    (c : Z) (m : machine) :
  size_pass w i (arg :: rest) c m =
  match GetStringUTFChars w SizePass arg with
  | None =>
      (Crash NullPointer,
       logged m [EGetObjectArrayElement SizePass i; EGetStringUTFChars SizePass arg])
  | Some s =>
      size_pass w (i + 1) rest (to_int (c + slot_size s))
        (logged m [EGetObjectArrayElement SizePass i;
                   EGetStringUTFChars SizePass arg;
                   EReleaseStringUTFChars SizePass arg;
                   EDeleteLocalRef SizePass arg])
  end.
Proof.
  simpl. unfold bind, emit, jni_GetStringUTFChars, ret, bind, emit, logged. simpl.
  destruct (GetStringUTFChars w SizePass arg) as [s|]; simpl.
  - rewrite int_add_slot. rewrite <- !app_assoc. reflexivity.
  - unfold crash. rewrite <- !app_assoc. reflexivity.
Qed.

(** One turn of the second loop. *)
Lemma copy_pass_cons (w : world) (i : Z) (arg : jstring) (rest : list jstring)
    (current : Z) (argv : list Z) (m : machine) :
  copy_pass w i (arg :: rest) current argv m =
  match GetStringUTFChars w CopyPass arg with
  | None =>
      (Crash NullPointer,
       logged m [EGetObjectArrayElement CopyPass i; EGetStringUTFChars CopyPass arg])
  | Some s =>
      let n := Z.of_nat (strlen s) in
      let called := [EGetObjectArrayElement CopyPass i;
                     EGetStringUTFChars CopyPass arg; EMemcpy current n] in
      match heap m with
      | None => (Crash NullPointer, logged m called)
      | Some b =>
          let size := Z.of_nat (length (cells b)) in
          if bool_decide (base b <= current /\
                          current + Z.of_nat (length (c_string s)) <= base b + size)
          then
            let cs1 := splice (Z.to_nat (current - base b)) (c_string s) (cells b) in
            if bool_decide (base b <= current + n /\
                            current + n + Z.of_nat (length [NUL])
                              <= base b + Z.of_nat (length cs1))
            then
              copy_pass w (i + 1) rest (current + (n + 1))
                (<[Z.to_nat i := current]> argv)
                (stored m b (splice (Z.to_nat (current + n - base b)) [NUL] cs1)
                   (called ++ [EStore (current + n);
                               EReleaseStringUTFChars CopyPass arg;
                               EDeleteLocalRef CopyPass arg]))
            else (Crash OutOfBounds, stored m b cs1 (called ++ [EStore (current + n)]))
          else (Crash OutOfBounds, logged m called)
      end
  end.
Proof.
  simpl. unfold bind, emit, jni_GetStringUTFChars, ret, bind, emit, logged, stored. simpl.
  destruct (GetStringUTFChars w CopyPass arg) as [s|]; simpl.
  - unfold memcpy, store, bind, emit, write, crash. simpl.
    rewrite Nat2Z.id. fold (c_string s).
    destruct (heap m) as [b|]; simpl.
    + destruct (bool_decide _); simpl.
      * destruct (bool_decide _); simpl; rewrite <- !app_assoc; reflexivity.
      * rewrite <- !app_assoc; reflexivity.
    + rewrite <- !app_assoc; reflexivity.
  - unfold crash. rewrite <- !app_assoc. reflexivity.
Qed.

(** ** The conversions of an array *)

Lemma chars_of_cons (w : world) (p : pass) (arg : jstring) (rest : list jstring) :
  chars_of w p (arg :: rest) =
  match GetStringUTFChars w p arg with
  | None => None
  | Some s =>
      match chars_of w p rest with
      | None => None
      | Some ss => Some (s :: ss)
      end
  end.
Proof. reflexivity. Qed.

Lemma length_chars_of (w : world) (p : pass) (arguments : list jstring)
    (ss : list (list byte)) :
  chars_of w p arguments = Some ss -> length ss = length arguments.
Proof.
  revert ss. induction arguments as [|arg rest IH]; intros ss H.
  - injection H as <-. reflexivity.
  - rewrite chars_of_cons in H.
    destruct (GetStringUTFChars w p arg); [|discriminate].
    destruct (chars_of w p rest) as [ss'|]; [|discriminate].
    injection H as <-. simpl. now rewrite (IH ss').
Qed.

(** The characters [chars_of] lists are those of each argument. *)
Lemma lookup_chars_of (w : world) (p : pass) (arguments : list jstring)
    (ss : list (list byte)) (i : nat) (arg : jstring) :
  chars_of w p arguments = Some ss ->
  arguments !! i = Some arg ->
  exists s, GetStringUTFChars w p arg = Some s /\ ss !! i = Some s.
Proof.
  revert ss i. induction arguments as [|a rest IH]; intros ss i H Hi; [discriminate|].
  rewrite chars_of_cons in H.
  destruct (GetStringUTFChars w p a) as [s|] eqn:Ea; [|discriminate].
  destruct (chars_of w p rest) as [ss'|]; [|discriminate].
  injection H as <-. destruct i as [|i]; simpl in Hi.
  - injection Hi as <-. exists s. split; [assumption|reflexivity].
  - apply (IH ss' i eq_refl Hi).
Qed.

(** *** The first loop *)

(** What the first loop returns: the wrapped sum of the slot sizes, or a
    fault at the first null conversion. *)
Lemma size_pass_result (w : world) (arguments : list jstring) :
  forall (i c : Z) (m : machine),
    INT_MIN <= c <= INT_MAX ->
    fst (size_pass w i arguments c m) =
    match chars_of w SizePass arguments with
    | Some ss => Done (to_int (c + total_size ss))
    | None => Crash NullPointer
    end.
Proof.
  induction arguments as [|arg rest IH]; intros i c m Hc.
  - simpl. rewrite Z.add_0_r, to_int_small by assumption. reflexivity.
  - rewrite size_pass_cons, chars_of_cons.
    destruct (GetStringUTFChars w SizePass arg) as [s|]; [|reflexivity].
    rewrite IH by apply to_int_range.
    destruct (chars_of w SizePass rest) as [ss|]; [|reflexivity].
    simpl. rewrite to_int_add_l. do 2 f_equal. lia.
Qed.

(** What the first loop does to the machine: it logs calls of its own
    phase and leaves the heap alone. *)
Lemma size_pass_run (w : world) (arguments : list jstring) :
  forall (i c : Z) (m : machine),
    exists evs, snd (size_pass w i arguments c m) = logged m evs /\
                Forall sizing evs.
Proof.
  induction arguments as [|arg rest IH]; intros i c m.
  - exists []. split; [|constructor].
    destruct m; unfold logged; simpl. now rewrite app_nil_r.
  - rewrite size_pass_cons.
    destruct (GetStringUTFChars w SizePass arg) as [s|].
    + destruct (IH (i + 1) (to_int (c + slot_size s))
                  (logged m [EGetObjectArrayElement SizePass i;
                             EGetStringUTFChars SizePass arg;
                             EReleaseStringUTFChars SizePass arg;
                             EDeleteLocalRef SizePass arg])) as (evs & -> & Hevs).
      eexists. split; [apply logged_logged|].
      repeat constructor. assumption.
    + eexists. split; [reflexivity|]. repeat constructor.
Qed.

(** *** Writes into the block *)

Lemma length_splice (off : nat) (bs cs : list byte) :
  (off + length bs <= length cs)%nat -> length (splice off bs cs) = length cs.
Proof.
  intros H. unfold splice. rewrite !length_app, length_take, length_drop. lia.
Qed.

(** Two adjacent writes are one write of the two pieces. *)
Lemma splice_splice (off : nat) (a b cs : list byte) :
  (off + length a + length b <= length cs)%nat ->
  splice (off + length a) b (splice off a cs) = splice off (a ++ b) cs.
Proof.
  intros H. unfold splice.
  assert (Hx : length (take off cs ++ a) = (off + length a)%nat)
    by (rewrite length_app, length_take; lia).
  rewrite (app_assoc (take off cs) a).
  rewrite <- Hx at 1. rewrite take_app_length.
  rewrite <- Hx at 1. rewrite drop_app_add, drop_drop.
  rewrite length_app, <- !app_assoc.
  now rewrite Nat.add_assoc.
Qed.

(** A write at the very start of a block. *)
Lemma splice_0 (bs cs : list byte) :
  splice 0 bs cs = bs ++ drop (length bs) cs.
Proof. reflexivity. Qed.

(** *** The second loop *)

(** What the second loop does to the log, however it ends. *)
Lemma copy_pass_run (w : world) (arguments : list jstring) :
  forall (i current : Z) (argv : list Z) (m : machine),
    exists evs, log (snd (copy_pass w i arguments current argv m)) = log m ++ evs /\
                Forall copying evs.
Proof.
  induction arguments as [|arg rest IH]; intros i current argv m.
  - exists []. split; [simpl; now rewrite app_nil_r|constructor].
  - rewrite copy_pass_cons.
    destruct (GetStringUTFChars w CopyPass arg) as [s|];
      [|eexists; split; [reflexivity|repeat constructor]].
    cbv zeta. destruct (heap m) as [b|];
      [|eexists; split; [reflexivity|repeat constructor]].
    destruct (bool_decide _);
      [|eexists; split; [reflexivity|repeat constructor]].
    destruct (bool_decide _);
      [|eexists; split; [reflexivity|repeat constructor]].
    match goal with
    | |- context [copy_pass w ?i' rest ?c' ?a' ?m'] =>
        destruct (IH i' c' a' m') as (evs & -> & Hevs)
    end.
    simpl. rewrite <- app_assoc. eexists. split; [reflexivity|].
    repeat constructor. assumption.
Qed.

(** With a null [args_buffer] the first turn of the loop faults. *)
Lemma copy_pass_null (w : world) (arg : jstring) (rest : list jstring)
    (i current : Z) (argv : list Z) (m : machine) :
  heap m = None ->
  fst (copy_pass w i (arg :: rest) current argv m) = Crash NullPointer.
Proof.
  intros Hm. rewrite copy_pass_cons.
  destruct (GetStringUTFChars w CopyPass arg); [|reflexivity].
  cbv zeta. now rewrite Hm.
Qed.

Lemma stored_stored (m : machine) (b : block) (cs1 cs2 : list byte)
    (evs1 evs2 : list event) :
  stored (stored m b cs1 evs1) {| base := base b; cells := cs1 |} cs2 evs2
  = stored m b cs2 (evs1 ++ evs2).
Proof. unfold stored. simpl. now rewrite <- app_assoc. Qed.

(** The two writes of one turn are one write of the whole slot. *)
Lemma splice_slot (off : nat) (s cs : list byte) :
  (off + strlen s + 1 <= length cs)%nat ->
  splice (off + strlen s) [NUL] (splice off (c_string s) cs)
  = splice off (c_string s ++ [NUL]) cs.
Proof.
  intros H. rewrite <- (length_c_string s).
  apply splice_splice. rewrite length_c_string. simpl. lia.
Qed.

(** The second loop on a block with room for every slot: it runs to the
    end, the cursor ends right after the last slot, [argv] holds the slot
    addresses and the block holds the slots back to back. *)
Lemma copy_pass_Done (w : world) (arguments : list jstring) :
  forall (ss : list (list byte)) (i current : Z) (argv : list Z)
         (m : machine) (b : block),
    chars_of w CopyPass arguments = Some ss ->
    heap m = Some b ->
    base b <= current ->
    current + total_size ss <= base b + Z.of_nat (length (cells b)) ->
    0 <= i ->
    (Z.to_nat i + length arguments <= length argv)%nat ->
    exists evs,
      copy_pass w i arguments current argv m =
      (Done (current + total_size ss,
             take (Z.to_nat i) argv ++ offsets current ss
               ++ drop (Z.to_nat i + length arguments) argv),
       stored m b (splice (Z.to_nat (current - base b)) (packed ss) (cells b)) evs)
      /\ Forall copying evs.
Proof.
  induction arguments as [|arg rest IH];
    intros ss i current argv m b Hss Hm Hlo Hhi Hi Hargv.
  - injection Hss as <-. exists []. split; [|constructor].
    simpl. unfold ret, stored, splice. simpl.
    rewrite Z.add_0_r, !Nat.add_0_r, !take_drop, app_nil_r.
    destruct m as [h l], b as [bb bc]; simpl in *. now subst h.
  - rewrite chars_of_cons in Hss.
    destruct (GetStringUTFChars w CopyPass arg) as [s|] eqn:Earg; [|discriminate].
    destruct (chars_of w CopyPass rest) as [ss'|] eqn:Erest; [|discriminate].
    injection Hss as <-. simpl total_size in *. simpl length in Hargv.
    pose proof (total_size_nonneg ss') as Hnn.
    pose proof (length_c_string s) as Hcs.
    set (off := Z.to_nat (current - base b)).
    assert (Hroom : (off + strlen s + 1 <= length (cells b))%nat)
      by (unfold slot_size in Hhi; lia).
    rewrite copy_pass_cons, Earg. cbv zeta. rewrite Hm.
    rewrite bool_decide_eq_true_2 by (unfold slot_size in Hhi; lia).
    rewrite bool_decide_eq_true_2
      by (rewrite length_splice by lia; simpl length; unfold slot_size in Hhi; lia).
    fold off.
    replace (Z.to_nat (current + Z.of_nat (strlen s) - base b))
      with (off + strlen s)%nat by lia.
    rewrite splice_slot by lia.
    match goal with
    | |- context [copy_pass w ?i' rest ?c' ?a' (stored m b ?cs ?evs0)] =>
        destruct (IH ss' i' c' a' (stored m b cs evs0)
                    {| base := base b; cells := cs |} eq_refl eq_refl)
          as (evs & -> & Hevs)
    end.
    + simpl. lia.
    + simpl. rewrite length_splice
        by (rewrite length_app, Hcs; simpl; lia).
      unfold slot_size in Hhi. lia.
    + lia.
    + rewrite length_insert. lia.
    + rewrite stored_stored. eexists. split.
      { f_equal; [do 2 f_equal; [unfold slot_size; lia|]|].
        - (* argv *)
          replace (Z.to_nat (i + 1)) with (S (Z.to_nat i)) by lia.
          rewrite (take_S_r _ _ current)
            by (apply list_lookup_insert_eq; lia).
          rewrite take_insert_ge by lia.
          rewrite drop_insert_lt by lia.
          rewrite <- app_assoc. simpl.
          unfold slot_size. now rewrite Nat.add_succ_r.
        - (* the block *)
          simpl base.
          replace (Z.to_nat (current + (Z.of_nat (strlen s) + 1) - base b))
            with (off + length (c_string s ++ [NUL]))%nat
            by (rewrite length_app, Hcs; simpl; lia).
          simpl cells. rewrite splice_splice; [reflexivity|].
          rewrite length_app, Hcs. simpl length at 1.
          rewrite <- (Nat2Z.id (length (packed ss'))), length_packed.
          unfold slot_size in Hhi. lia. }
      apply Forall_app. split; [repeat constructor|exact Hevs].
Qed.

(** Conversely, the second loop only runs to the end when no conversion
    was null and, unless there was nothing to copy, every slot fitted in
    the block. *)
Lemma copy_pass_inv (w : world) (arguments : list jstring) :
  forall (i current : Z) (argv : list Z) (m m' : machine) (r : Z * list Z),
    copy_pass w i arguments current argv m = (Done r, m') ->
    exists ss,
      chars_of w CopyPass arguments = Some ss /\
      (arguments = [] \/
       exists b, heap m = Some b /\ base b <= current /\
                 current + total_size ss <= base b + Z.of_nat (length (cells b))).
Proof.
  induction arguments as [|arg rest IH]; intros i current argv m m' r H.
  - exists []. split; [reflexivity|now left].
  - rewrite copy_pass_cons in H. rewrite chars_of_cons.
    destruct (GetStringUTFChars w CopyPass arg) as [s|]; [|discriminate].
    cbv zeta in H. destruct (heap m) as [b|]; [|discriminate].
    case_bool_decide as H1; [|discriminate].
    case_bool_decide as H2; [|discriminate].
    rewrite length_c_string in H1.
    rewrite length_splice in H2 by (rewrite length_c_string; lia).
    simpl length in H2.
    apply IH in H as (ss' & Hss' & Hrest). rewrite Hss'.
    exists (s :: ss'). split; [reflexivity|]. right.
    exists b. split; [reflexivity|]. split; [lia|].
    simpl total_size. unfold slot_size.
    destruct Hrest as [->|(b' & Hb' & Hlo & Hhi)].
    + injection Hss' as <-. simpl. lia.
    + unfold stored in Hb'. simpl in Hb'. injection Hb' as <-.
      simpl in Hlo, Hhi.
      rewrite !length_splice in Hhi
        by (rewrite ?length_splice, ?length_c_string
              by (rewrite length_c_string; lia); simpl; lia).
      lia.
Qed.

(** *** Everything before the call *)

Lemma calloc_after (w : world) (nmemb : Z) (m : machine) :
  calloc w nmemb m =
  (Done (fst (after_calloc w nmemb m)), snd (after_calloc w nmemb m)).
Proof. unfold calloc, after_calloc. now destruct (libc_calloc w nmemb). Qed.

Lemma marshal_unfold (w : world) (arguments : list jstring) (m : machine) :
  marshal w arguments m =
  match size_pass w 0 arguments 0 (logged m [EGetArrayLength]) with
  | (Crash f, m1) => (Crash f, m1)
  | (Done c, m1) =>
      let args_buffer := fst (after_calloc w (to_size_t c) m1) in
      match copy_pass w 0 arguments args_buffer
              (replicate (length arguments) NULL)
              (snd (after_calloc w (to_size_t c) m1)) with
      | (Done r, m3) =>
          (Done (Z.of_nat (length arguments), args_buffer, fst r, snd r), m3)
      | (Crash f, m3) => (Crash f, m3)
      end
  end.
Proof.
  unfold marshal, jni_GetArrayLength, bind, emit, ret. simpl.
  fold (logged m [EGetArrayLength]).
  destruct (size_pass w 0 arguments 0 (logged m [EGetArrayLength])) as [[c|f] m1];
    [|reflexivity].
  rewrite calloc_after, Nat2Z.id. cbv zeta.
  destruct (copy_pass _ _ _ _ _ _) as [[r|f] m3]; reflexivity.
Qed.

(** A null conversion in the first loop ends the run there: only calls
    of the size pass were made. *)
Lemma marshal_size_crash (w : world) (arguments : list jstring) (m : machine) :
  chars_of w SizePass arguments = None ->
  exists sz,
    marshal w arguments m = (Crash NullPointer, logged m (EGetArrayLength :: sz)) /\
    Forall sizing sz.
Proof.
  intros Hnone. rewrite marshal_unfold.
  pose proof (size_pass_result w arguments 0 0 (logged m [EGetArrayLength])) as Hr.
  destruct (size_pass_run w arguments 0 0 (logged m [EGetArrayLength]))
    as (sz & Hm1 & Hsz).
  rewrite Hnone in Hr.
  destruct (size_pass w 0 arguments 0 (logged m [EGetArrayLength])) as [r m1].
  simpl in Hr, Hm1. rewrite Hr by (unfold INT_MIN, INT_MAX; lia).
  subst m1. rewrite logged_logged. exists sz. split; [reflexivity|assumption].
Qed.

(** Otherwise the first loop ends with the wrapped sum, [calloc] is
    asked for it, and the second loop starts at the block's base. *)
Lemma marshal_sized (w : world) (arguments : list jstring) (m : machine)
    (ss1 : list (list byte)) :
  chars_of w SizePass arguments = Some ss1 ->
  exists sz,
    Forall sizing sz /\
    marshal w arguments m =
    let m1 := logged m (EGetArrayLength :: sz) in
    let args_buffer := fst (after_calloc w (buffer_size ss1) m1) in
    match copy_pass w 0 arguments args_buffer
            (replicate (length arguments) NULL)
            (snd (after_calloc w (buffer_size ss1) m1)) with
    | (Done r, m3) =>
        (Done (Z.of_nat (length arguments), args_buffer, fst r, snd r), m3)
    | (Crash f, m3) => (Crash f, m3)
    end.
Proof.
  intros Hsome. rewrite marshal_unfold.
  pose proof (size_pass_result w arguments 0 0 (logged m [EGetArrayLength])) as Hr.
  destruct (size_pass_run w arguments 0 0 (logged m [EGetArrayLength]))
    as (sz & Hm1 & Hsz).
  rewrite Hsome in Hr.
  destruct (size_pass w 0 arguments 0 (logged m [EGetArrayLength])) as [r m1].
  simpl in Hr, Hm1. rewrite Hr by (unfold INT_MIN, INT_MAX; lia).
  subst m1. rewrite logged_logged, Z.add_0_l. exists sz. split; [assumption|].
  reflexivity.
Qed.

Lemma buffer_size_nonneg (ss : list (list byte)) : 0 <= buffer_size ss.
Proof.
  unfold buffer_size, to_size_t.
  pose proof (Z.mod_pos_bound (to_int (total_size ss)) (2 ^ 64)). lia.
Qed.

(** Without wrap-around the size asked for is the sum of the slots. *)
Lemma buffer_size_exact (ss : list (list byte)) :
  total_size ss <= INT_MAX -> buffer_size ss = total_size ss.
Proof.
  intros H. pose proof (total_size_nonneg ss). unfold buffer_size.
  rewrite to_int_small by (unfold INT_MIN, INT_MAX in *; lia).
  apply to_size_t_small. lia.
Qed.

(** The run up to the call when every conversion succeeds, [calloc]
    returns a block and the strings of the second loop fit in it. *)
Lemma marshal_Done (w : world) (arguments : list jstring) (m : machine)
    (ss1 ss : list (list byte)) (buf : Z) :
  chars_of w SizePass arguments = Some ss1 ->
  chars_of w CopyPass arguments = Some ss ->
  libc_calloc w (buffer_size ss1) = Some buf ->
  total_size ss <= buffer_size ss1 ->
  exists sz cp,
    Forall sizing sz /\ Forall copying cp /\
    marshal w arguments m =
    (Done (Z.of_nat (length arguments), buf, buf + total_size ss, offsets buf ss),
     {| heap := Some {| base := buf;
                        cells := packed ss ++
                                 replicate (Z.to_nat (buffer_size ss1 - total_size ss)) NUL |};
        log := log m ++ EGetArrayLength :: sz ++ ECalloc (buffer_size ss1) buf :: cp |}).
Proof.
  intros H1 H2 Hbuf Hfit.
  destruct (marshal_sized w arguments m ss1 H1) as (sz & Hsz & ->).
  unfold after_calloc. rewrite Hbuf. cbv zeta. simpl fst. simpl snd.
  pose proof (buffer_size_nonneg ss1) as Hnn.
  pose proof (total_size_nonneg ss) as Hnn'.
  match goal with
  | |- context [copy_pass w 0 arguments buf ?a ?m2] =>
      edestruct (copy_pass_Done w arguments ss 0 buf a m2
                   {| base := buf; cells := replicate (Z.to_nat (buffer_size ss1)) NUL |}
                   H2 eq_refl) as (cp & -> & Hcp)
  end.
  - simpl. lia.
  - simpl. rewrite length_replicate. lia.
  - lia.
  - rewrite length_replicate. simpl. lia.
  - exists sz, cp. split; [assumption|]. split; [assumption|].
    simpl fst. simpl snd. unfold stored, logged. simpl.
    rewrite drop_ge by (rewrite length_replicate; lia).
    rewrite app_nil_r.
    rewrite Z.sub_diag. change (Z.to_nat 0) with 0%nat. rewrite splice_0.
    rewrite drop_replicate.
    replace (Z.to_nat (buffer_size ss1) - length (packed ss))%nat
      with (Z.to_nat (buffer_size ss1 - total_size ss))
      by (rewrite <- length_packed; lia).
    rewrite <- !app_assoc. reflexivity.
Qed.

(** With no argument there is nothing to convert or copy. *)
Lemma marshal_nil (w : world) (m : machine) :
  marshal w [] m =
  (Done (0, fst (after_calloc w 0 (logged m [EGetArrayLength])),
         fst (after_calloc w 0 (logged m [EGetArrayLength])), []),
   snd (after_calloc w 0 (logged m [EGetArrayLength]))).
Proof. rewrite marshal_unfold. reflexivity. Qed.

(** What a run that reached the call went through. *)
Lemma marshal_inv (w : world) (arguments : list jstring) (m m' : machine)
    (argc buf cur : Z) (argv : list Z) :
  marshal w arguments m = (Done (argc, buf, cur, argv), m') ->
  exists ss1 ss,
    chars_of w SizePass arguments = Some ss1 /\
    chars_of w CopyPass arguments = Some ss /\
    (arguments = [] \/
     (libc_calloc w (buffer_size ss1) = Some buf /\
      total_size ss <= buffer_size ss1)).
Proof.
  intros H.
  destruct (chars_of w SizePass arguments) as [ss1|] eqn:E1.
  2:{ destruct (marshal_size_crash w arguments m E1) as (sz & Hc & _).
      rewrite Hc in H. discriminate. }
  destruct (marshal_sized w arguments m ss1 E1) as (sz & _ & Hm).
  rewrite Hm in H. clear Hm. cbv zeta in H.
  destruct (copy_pass _ _ _ _ _ _) as [[r|f] m3] eqn:Ecp; [|discriminate].
  apply copy_pass_inv in Ecp as (ss & E2 & Hcase).
  exists ss1, ss. split; [reflexivity|]. split; [assumption|].
  destruct Hcase as [->|(b & Hb & Hlo & Hhi)]; [now left|right].
  injection H as _ Hbuf _ _ _.
  unfold after_calloc in Hb, Hlo, Hhi, Hbuf.
  destruct (libc_calloc w (buffer_size ss1)) as [b0|]; [|discriminate].
  simpl in Hb, Hlo, Hhi, Hbuf. injection Hb as <-. simpl in Hhi.
  rewrite length_replicate in Hhi.
  pose proof (buffer_size_nonneg ss1). subst b0. split; [reflexivity|lia].
Qed.

(** *** The whole function *)

Lemma start_unfold (w : world) (arguments : list jstring) (m : machine) :
  startNodeWithArguments w arguments m =
  match marshal w arguments m with
  | (Done (argc, buf, _, argv), m1) =>
      let result := node_Start w argc argv (heap m1) in
      (Done result,
       {| heap := None; log := log m1 ++ [ENodeStart argc argv result; EFree buf] |})
  | (Crash f, m1) => (Crash f, m1)
  end.
Proof.
  unfold startNodeWithArguments, bind.
  destruct (marshal w arguments m) as [[[[[argc buf] cur] argv]|f] m1]; [|reflexivity].
  unfold call_node_Start, free, ret. simpl. now rewrite <- app_assoc.
Qed.

(** ** The layout: where each slot lies in the packed bytes *)

Lemma packed_app (ss1 ss2 : list (list byte)) :
  packed (ss1 ++ ss2) = packed ss1 ++ packed ss2.
Proof.
  induction ss1 as [|s ss1 IH]; simpl; [reflexivity|].
  now rewrite IH, <- !app_assoc.
Qed.

(** Slot [i] sits between the slots before it and the slots after it. *)
Lemma packed_split (ss : list (list byte)) (i : nat) (s : list byte) :
  ss !! i = Some s ->
  packed ss = packed (take i ss) ++ (c_string s ++ [NUL]) ++ packed (drop (S i) ss).
Proof.
  intros Hi. rewrite <- (take_drop_middle ss i s Hi) at 1.
  now rewrite packed_app.
Qed.

Lemma total_size_take_S (ss : list (list byte)) (i : nat) (s : list byte) :
  ss !! i = Some s ->
  total_size (take (S i) ss) = total_size (take i ss) + slot_size s.
Proof.
  intros Hi. rewrite (take_S_r ss i s Hi), total_size_app. simpl. lia.
Qed.

Lemma total_size_take_mono (ss : list (list byte)) (i j : nat) :
  (i <= j)%nat -> total_size (take i ss) <= total_size (take j ss).
Proof.
  revert i j. induction ss as [|s ss IH]; intros i j Hij.
  - now rewrite !take_nil.
  - destruct i as [|i]; [apply total_size_nonneg|].
    destruct j as [|j]; [lia|]. simpl.
    specialize (IH i j). lia.
Qed.

Lemma total_size_take_le (ss : list (list byte)) (i : nat) :
  total_size (take i ss) <= total_size ss.
Proof.
  rewrite <- (take_drop i ss) at 2. rewrite total_size_app.
  pose proof (total_size_nonneg (drop i ss)). lia.
Qed.

(** Two different slots do not meet: the earlier one ends, terminator
    included, before the later one starts. *)
Lemma offsets_apart (start : Z) (ss : list (list byte)) (i j : nat)
    (si : list byte) :
  (i < j)%nat -> ss !! i = Some si ->
  start + total_size (take i ss) + Z.of_nat (strlen si)
  < start + total_size (take j ss).
Proof.
  intros Hij Hi.
  pose proof (total_size_take_mono ss (S i) j Hij) as Hmono.
  rewrite (total_size_take_S ss i si Hi) in Hmono.
  unfold slot_size in Hmono. lia.
Qed.

(** The string read at the start of slot [i] of a block that begins with
    the packed bytes. *)
Lemma read_cstr_slot (buf : Z) (ss : list (list byte)) (tail : list byte)
    (i : nat) (s : list byte) :
  ss !! i = Some s ->
  read_cstr (Some {| base := buf; cells := packed ss ++ tail |})
            (buf + total_size (take i ss))
  = Some (c_string s).
Proof.
  intros Hi. unfold read_cstr. simpl.
  pose proof (total_size_nonneg (take i ss)) as Hnn.
  pose proof (length_packed (take i ss)) as Hlen.
  rewrite (packed_split ss i s Hi), <- !app_assoc.
  rewrite bool_decide_eq_true_2
    by (rewrite !length_app; simpl; lia).
  replace (Z.to_nat (buf + total_size (take i ss) - buf))
    with (length (packed (take i ss))) by lia.
  rewrite drop_app_length.
  rewrite (app_assoc (c_string s) [NUL]). apply cstr_at_slot.
Qed.

(** The byte after the characters of slot [i] is its terminator, and the
    bytes before it are the characters. *)
Lemma slot_bytes (buf : Z) (ss : list (list byte)) (tail : list byte)
    (i : nat) (s : list byte) :
  ss !! i = Some s ->
  let h := Some {| base := buf; cells := packed ss ++ tail |} in
  let p := buf + total_size (take i ss) in
  read_byte h (p + Z.of_nat (strlen s)) = Some NUL /\
  forall k c, c_string s !! k = Some c -> read_byte h (p + Z.of_nat k) = Some c.
Proof.
  intros Hi h p. subst h p. unfold read_byte. simpl.
  pose proof (total_size_nonneg (take i ss)) as Hnn.
  pose proof (length_packed (take i ss)) as Hlen.
  pose proof (length_c_string s) as Hcs.
  rewrite (packed_split ss i s Hi), <- !app_assoc.
  split.
  - rewrite bool_decide_eq_true_2 by lia.
    rewrite lookup_app_r by lia.
    rewrite lookup_app_r by lia.
    replace (_ - _ - _)%nat with 0%nat by lia. reflexivity.
  - intros k c Hk. pose proof (lookup_lt_Some _ _ _ Hk) as Hlt.
    rewrite bool_decide_eq_true_2 by lia.
    rewrite lookup_app_r by lia.
    rewrite lookup_app_l by lia.
    rewrite <- Hk. f_equal. lia.
Qed.

(** What the callee is handed by a run that reached the call: the count,
    the slot addresses in order and, behind [args_buffer], the slots back
    to back. *)
Lemma marshal_reached (w : world) (arguments : list jstring) (m m' : machine)
    (argc buf cur : Z) (argv : list Z) :
  marshal w arguments m = (Done (argc, buf, cur, argv), m') ->
  exists ss1 ss,
    chars_of w SizePass arguments = Some ss1 /\
    chars_of w CopyPass arguments = Some ss /\
    total_size ss <= buffer_size ss1 /\
    argc = Z.of_nat (length arguments) /\
    cur = buf + total_size ss /\
    argv = offsets buf ss /\
    ((ss = [] /\ heap m' = None) \/
     heap m' = Some {| base := buf;
                       cells := packed ss ++
                                replicate (Z.to_nat (buffer_size ss1 - total_size ss)) NUL |}).
Proof.
  intros H. destruct (marshal_inv _ _ _ _ _ _ _ _ H) as (ss1 & ss & E1 & E2 & Hcase).
  exists ss1, ss. split; [assumption|]. split; [assumption|].
  destruct Hcase as [->|[Hbuf Hfit]].
  - injection E1 as <-. injection E2 as <-.
    rewrite marshal_nil in H. injection H as <- <- <- <- <-.
    pose proof (buffer_size_nonneg []) as Hnn.
    unfold after_calloc. destruct (libc_calloc w 0) as [b|]; simpl;
      (split; [lia|]); (split; [reflexivity|]); (split; [lia|]);
      (split; [reflexivity|]).
    + right. reflexivity.
    + left. split; reflexivity.
  - destruct (marshal_Done w arguments m ss1 ss buf E1 E2 Hbuf Hfit)
      as (sz & cp & _ & _ & Heq).
    rewrite Heq in H. injection H as <- <- <- <-.
    repeat split; try assumption. right. reflexivity.
Qed.

(** The run reaches the call whenever both loops get the same strings,
    their slots fit an [int], and [calloc] returns a block. *)
Lemma marshal_completes (w : world) (arguments : list jstring) (m : machine)
    (ss : list (list byte)) :
  chars_of w SizePass arguments = Some ss ->
  chars_of w CopyPass arguments = Some ss ->
  total_size ss <= INT_MAX ->
  is_Some (libc_calloc w (total_size ss)) ->
  exists buf sz cp,
    libc_calloc w (total_size ss) = Some buf /\
    Forall sizing sz /\ Forall copying cp /\
    marshal w arguments m =
    (Done (Z.of_nat (length arguments), buf, buf + total_size ss, offsets buf ss),
     {| heap := Some {| base := buf; cells := packed ss |};
        log := log m ++ EGetArrayLength :: sz ++ ECalloc (total_size ss) buf :: cp |}).
Proof.
  intros E1 E2 Hfit [buf Hbuf].
  pose proof (buffer_size_exact ss Hfit) as Hsize.
  destruct (marshal_Done w arguments m ss ss buf E1 E2) as (sz & cp & Hsz & Hcp & Heq).
  - now rewrite Hsize.
  - rewrite Hsize. lia.
  - exists buf, sz, cp. repeat split; try assumption.
    rewrite Heq, Hsize, Z.sub_diag. simpl. now rewrite app_nil_r.
Qed.

(** ** The properties *)

(** C1 (round trip).  Whenever the run reaches the call of the runtime,
    [argv] has an entry for every index [i] of the argument array, and
    the null-terminated string read at [argv[i]] is exactly the byte
    sequence [GetStringUTFChars] gave for argument [i] in the copy loop,
    provided that sequence is well formed (has no zero byte inside); the
    entries are in the order of the arguments.  And the run does reach
    the call whenever every argument converts to the same bytes in both
    loops, the slot sizes sum to at most [INT_MAX] and [calloc] returns a
    block. *)
Theorem argv_round_trip (w : world) (arguments : list jstring) (m : machine) :
  (forall argc buf cur argv m',
      marshal w arguments m = (Done (argc, buf, cur, argv), m') ->
      length argv = length arguments /\
      forall (i : nat) (arg : jstring) (s : list byte),
        arguments !! i = Some arg ->
        GetStringUTFChars w CopyPass arg = Some s ->
        well_formed s ->
        exists p, argv !! i = Some p /\ read_cstr (heap m') p = Some s)
  /\
  (forall ss,
      chars_of w SizePass arguments = Some ss ->
      chars_of w CopyPass arguments = Some ss ->
      total_size ss <= INT_MAX ->
      is_Some (libc_calloc w (total_size ss)) ->
      exists r m', marshal w arguments m = (Done r, m')).
Proof.
  split.
  - intros argc buf cur argv m' H.
    destruct (marshal_reached _ _ _ _ _ _ _ _ H)
      as (ss1 & ss & E1 & E2 & _ & _ & _ & -> & Hheap).
    pose proof (length_chars_of _ _ _ _ E2) as Hlen.
    split; [now rewrite length_offsets|].
    intros i arg s Hi Hs Hwf.
    destruct (lookup_chars_of _ _ _ _ _ _ E2 Hi) as (s' & Hs' & Hss).
    assert (s' = s) by congruence. subst s'.
    pose proof (lookup_lt_Some _ _ _ Hss) as Hlt.
    exists (buf + total_size (take i ss)).
    split; [now apply lookup_offsets|].
    destruct Hheap as [[Hnil _]|Hm']; [subst ss; discriminate|].
    rewrite Hm', (read_cstr_slot buf ss _ i s Hss).
    now rewrite c_string_well_formed.
  - intros ss E1 E2 Hfit Hbuf.
    destruct (marshal_completes w arguments m ss E1 E2 Hfit Hbuf)
      as (buf & sz & cp & _ & _ & _ & ->).
    eauto.
Qed.

Example sample_marshal :
  fst (marshal sample_world [1; 2] boot) = Done (2, 4096, 4111, [4096; 4101]) /\
  heap (snd (marshal sample_world [1; 2] boot))
  = Some {| base := 4096;
            cells := list_byte_of_string "node" ++ [NUL]
                     ++ list_byte_of_string "--version" ++ [NUL] |}.
Proof. split; reflexivity. Qed.

Lemma sample_marshal_run :
  marshal sample_world [1; 2] boot =
  (Done (2, 4096, 4111, [4096; 4101]), snd (marshal sample_world [1; 2] boot)).
Proof. vm_compute. reflexivity. Qed.

Lemma argv_round_trip_witness :
  read_cstr (heap (snd (marshal sample_world [1; 2] boot))) 4101
  = Some (list_byte_of_string "--version").
Proof.
  destruct (argv_round_trip sample_world [1; 2] boot) as [H _].
  destruct (H _ _ _ _ _ sample_marshal_run) as [_ H'].
  destruct (H' 1%nat 2 (list_byte_of_string "--version"))
    as (p & Hp & Hr).
  - reflexivity.
  - reflexivity.
  - repeat constructor; discriminate.
  - injection Hp as <-. exact Hr.
Defined.

(** C3 (slot layout).  Whenever the run reaches the call of the runtime:
    [argv[i]] is the address of the first byte of the copy of argument
    [i], that is [args_buffer] plus the sizes of the slots before it; the
    bytes from there on are the characters of the argument, followed by a
    zero byte; the slot lies inside the block; and for two different
    indices the closed address ranges [argv[i], argv[i] + length_i] and
    [argv[j], argv[j] + length_j] are disjoint, so no entry points into
    the bytes of another string. *)
Theorem slot_layout (w : world) (arguments : list jstring) (m m' : machine)
    (argc buf cur : Z) (argv : list Z) :
  marshal w arguments m = (Done (argc, buf, cur, argv), m') ->
  exists ss,
    chars_of w CopyPass arguments = Some ss /\
    forall (i : nat) (si : list byte),
      ss !! i = Some si ->
      exists pi,
        argv !! i = Some pi /\
        pi = buf + total_size (take i ss) /\
        buf <= pi /\ pi + Z.of_nat (strlen si) < cur /\
        (forall k c, c_string si !! k = Some c ->
                     read_byte (heap m') (pi + Z.of_nat k) = Some c) /\
        read_byte (heap m') (pi + Z.of_nat (strlen si)) = Some NUL /\
        forall (j : nat) (sj : list byte) (pj : Z),
          j <> i -> ss !! j = Some sj -> argv !! j = Some pj ->
          pi + Z.of_nat (strlen si) < pj \/ pj + Z.of_nat (strlen sj) < pi.
Proof.
  intros H.
  destruct (marshal_reached _ _ _ _ _ _ _ _ H)
    as (ss1 & ss & E1 & E2 & _ & _ & -> & -> & Hheap).
  exists ss. split; [assumption|]. intros i si Hi.
  pose proof (lookup_lt_Some _ _ _ Hi) as Hlt.
  destruct Hheap as [[Hnil _]|Hm']; [subst ss; discriminate|].
  exists (buf + total_size (take i ss)).
  pose proof (total_size_nonneg (take i ss)) as Hnn.
  pose proof (total_size_take_le ss (S i)) as Hle.
  rewrite (total_size_take_S ss i si Hi) in Hle. unfold slot_size in Hle.
  destruct (slot_bytes buf ss
              (replicate (Z.to_nat (buffer_size ss1 - total_size ss)) NUL) i si Hi)
    as [Hnul Hchars].
  rewrite Hm'.
  split; [now apply lookup_offsets|]. split; [reflexivity|].
  split; [lia|]. split; [lia|]. split; [exact Hchars|]. split; [exact Hnul|].
  intros j sj pj Hne Hj Hpj.
  pose proof (lookup_lt_Some _ _ _ Hj) as Hltj.
  rewrite lookup_offsets in Hpj by assumption. injection Hpj as <-.
  destruct (Nat.lt_total i j) as [Hij|[->|Hji]]; [left|contradiction|right].
  - now apply offsets_apart.
  - now apply offsets_apart.
Qed.

Lemma slot_layout_witness :
  exists ss,
    chars_of sample_world CopyPass [1; 2] = Some ss /\
    forall (i : nat) (si : list byte),
      ss !! i = Some si ->
      exists pi,
        [4096; 4101] !! i = Some pi /\
        pi = 4096 + total_size (take i ss) /\
        4096 <= pi /\ pi + Z.of_nat (strlen si) < 4111 /\
        (forall k c, c_string si !! k = Some c ->
                     read_byte (heap (snd (marshal sample_world [1; 2] boot)))
                               (pi + Z.of_nat k) = Some c) /\
        read_byte (heap (snd (marshal sample_world [1; 2] boot)))
                  (pi + Z.of_nat (strlen si)) = Some NUL /\
        forall (j : nat) (sj : list byte) (pj : Z),
          j <> i -> ss !! j = Some sj -> [4096; 4101] !! j = Some pj ->
          pi + Z.of_nat (strlen si) < pj \/ pj + Z.of_nat (strlen sj) < pi.
Proof.
  exact (slot_layout sample_world [1; 2] boot _ 2 4096 4111 [4096; 4101]
           sample_marshal_run).
Defined.

(** C6 (pass-through of the result).  When the run reaches the call of
    the runtime and the entry point returns [k], whatever [k] is (zero or
    a failure code), the function returns exactly [k]: the call is logged
    with that value, followed only by the release of the buffer. *)
Theorem start_returns_runtime_result (w : world) (arguments : list jstring)
    (m m1 : machine) (argc buf cur : Z) (argv : list Z) (k : Z) :
  marshal w arguments m = (Done (argc, buf, cur, argv), m1) ->
  node_Start w argc argv (heap m1) = k ->
  exists m2,
    startNodeWithArguments w arguments m = (Done k, m2) /\
    log m2 = log m1 ++ [ENodeStart argc argv k; EFree buf].
Proof.
  intros Hm Hk. rewrite start_unfold, Hm. cbv zeta. rewrite Hk.
  eexists. split; reflexivity.
Qed.

Lemma start_returns_runtime_result_witness :
  exists m2,
    startNodeWithArguments sample_world [1; 2] boot = (Done 2, m2) /\
    log m2 = log (snd (marshal sample_world [1; 2] boot))
             ++ [ENodeStart 2 [4096; 4101] 2; EFree 4096].
Proof.
  exact (start_returns_runtime_result sample_world [1; 2] boot _
           2 4096 4111 [4096; 4101] 2 sample_marshal_run eq_refl).
Defined.

(** C8 (no argument).  With an empty array the first loop leaves the size
    at 0, [calloc] is asked for 0 bytes, [argv] is empty, and the runtime
    is still called, with count 0; its result is what the function
    returns.  This holds whether [calloc(0)] returns a block or null. *)
Theorem empty_arguments (w : world) (m : machine) :
  fst (size_pass w 0 [] 0 (logged m [EGetArrayLength])) = Done 0 /\
  exists buf h,
    (buf, h) = match libc_calloc w 0 with
               | Some b => (b, Some {| base := b; cells := [] |})
               | None => (NULL, None)
               end /\
    marshal w [] m =
    (Done (0, buf, buf, []),
     {| heap := h; log := log m ++ [EGetArrayLength; ECalloc 0 buf] |}) /\
    startNodeWithArguments w [] m =
    (Done (node_Start w 0 [] h),
     {| heap := None;
        log := log m ++ [EGetArrayLength; ECalloc 0 buf;
                         ENodeStart 0 [] (node_Start w 0 [] h); EFree buf] |}).
Proof.
  split; [reflexivity|].
  rewrite start_unfold, marshal_nil. unfold after_calloc, logged. simpl.
  destruct (libc_calloc w 0) as [b|]; simpl;
    eexists _, _; (split; [reflexivity|]);
    rewrite <- !app_assoc; split; reflexivity.
Qed.

(** ** The order of the calls: facts *)

Lemma in_order_lookup (l : list event) :
  in_order l ->
  forall (i j : nat) (e1 e2 : event),
    (i < j)%nat -> l !! i = Some e1 -> l !! j = Some e2 ->
    (rank (phase_of e1) <= rank (phase_of e2))%nat.
Proof.
  induction 1 as [|a l Hl IH Ha]; intros i j e1 e2 Hij H1 H2; [discriminate|].
  destruct j as [|j]; [lia|]. destruct i as [|i]; simpl in H1, H2.
  - injection H1 as <-. rewrite Forall_forall in Ha. apply Ha.
    eapply list_elem_of_lookup_2. exact H2.
  - apply (IH i j); [lia|assumption..].
Qed.

Lemma in_order_precedes (l : list event) (ph1 ph2 : phase) :
  in_order l -> (rank ph1 < rank ph2)%nat -> precedes l ph1 ph2.
Proof.
  intros Hl Hlt i j e1 e2 H1 H2 <- <-.
  destruct (Nat.lt_total i j) as [Hij|[->|Hji]]; [assumption| |].
  - rewrite H1 in H2. injection H2 as <-. lia.
  - pose proof (in_order_lookup l Hl j i e2 e1 Hji H2 H1). lia.
Qed.

Lemma in_order_same (l : list event) (ph : phase) :
  Forall (fun e => phase_of e = ph) l -> in_order l.
Proof.
  induction 1 as [|e l He Hl IH]; constructor; [assumption|].
  eapply Forall_impl; [exact Hl|]. intros e' He'. simpl in He'.
  rewrite He, He'. lia.
Qed.

(** Calls up to rank [k], then calls from rank [k] on. *)
Lemma in_order_app (l1 l2 : list event) (k : nat) :
  in_order l1 -> in_order l2 ->
  Forall (fun e => (rank (phase_of e) <= k)%nat) l1 ->
  Forall (fun e => (k <= rank (phase_of e))%nat) l2 ->
  in_order (l1 ++ l2).
Proof.
  intros H1 H2 Hlo Hhi. apply StronglySorted_app_2; [|assumption..].
  intros x1 x2 Hx1 Hx2.
  rewrite Forall_forall in Hlo, Hhi.
  specialize (Hlo x1 Hx1). specialize (Hhi x2 Hx2). lia.
Qed.

(** The log of the run up to the call, however it ends: the size pass,
    and unless it faulted, one allocation and then the copy pass. *)
Lemma marshal_log (w : world) (arguments : list jstring) (m : machine) :
  exists sz,
    Forall sizing sz /\
    ((exists f, marshal w arguments m = (Crash f, logged m (EGetArrayLength :: sz)))
     \/
     (exists n buf cp,
         Forall copying cp /\
         log (snd (marshal w arguments m))
         = log m ++ EGetArrayLength :: sz ++ ECalloc n buf :: cp /\
         forall argc b cur argv,
           fst (marshal w arguments m) = Done (argc, b, cur, argv) -> b = buf)).
Proof.
  destruct (chars_of w SizePass arguments) as [ss1|] eqn:E1.
  - destruct (marshal_sized w arguments m ss1 E1) as (sz & Hsz & ->).
    exists sz. split; [assumption|]. right. cbv zeta.
    match goal with
    | |- context [copy_pass w 0 arguments ?b ?a ?m2] =>
        destruct (copy_pass_run w arguments 0 b a m2) as (cp & Hlog & Hcp);
        set (buf := b) in *; set (m2' := m2) in *
    end.
    exists (buffer_size ss1), buf, cp. split; [assumption|].
    assert (Hm2 : log m2' = log m ++ EGetArrayLength :: sz
                            ++ [ECalloc (buffer_size ss1) buf]).
    { subst m2' buf. unfold after_calloc, logged.
      destruct (libc_calloc w (buffer_size ss1)); simpl;
        now rewrite <- !app_assoc. }
    destruct (copy_pass w 0 arguments buf _ m2') as [[r|f] m3]; simpl in *.
    + split; [|intros ? ? ? ? [= _ <- _ _]; reflexivity].
      rewrite Hlog, Hm2. norm_log. reflexivity.
    + split; [|discriminate].
      rewrite Hlog, Hm2. norm_log. reflexivity.
  - destruct (marshal_size_crash w arguments m E1) as (sz & Hc & Hsz).
    exists sz. split; [assumption|]. left. eauto.
Qed.

Lemma sizing_rank (l : list event) :
  Forall sizing l -> Forall (fun e => rank (phase_of e) = 1%nat) l.
Proof.
  intros H. eapply Forall_impl; [exact H|].
  intros e He. unfold sizing in He. now rewrite He.
Qed.

Lemma copying_rank (l : list event) :
  Forall copying l -> Forall (fun e => rank (phase_of e) = 3%nat) l.
Proof.
  intros H. eapply Forall_impl; [exact H|].
  intros e He. unfold copying in He. now rewrite He.
Qed.

(** The canonical log is in phase order. *)
Lemma in_order_run (sz cp tl : list event) (n buf : Z) :
  Forall sizing sz -> Forall copying cp ->
  in_order tl -> Forall (fun e => (4 <= rank (phase_of e))%nat) tl ->
  in_order (EGetArrayLength :: sz ++ ECalloc n buf :: cp ++ tl).
Proof.
  intros Hsz Hcp Htl Hhi.
  apply sizing_rank in Hsz. apply copying_rank in Hcp.
  change (in_order ((EGetArrayLength :: sz) ++ [ECalloc n buf] ++ cp ++ tl)).
  apply (in_order_app _ _ 1).
  - apply (in_order_same _ Sizing). constructor; [reflexivity|].
    eapply Forall_impl; [exact Hsz|]. intros e He. simpl in He.
    destruct (phase_of e); simpl in He; congruence.
  - apply (in_order_app _ _ 2).
    + apply (in_order_same _ Allocation). repeat constructor.
    + apply (in_order_app _ _ 3); [|assumption| |].
      * apply (in_order_same _ Copying).
        eapply Forall_impl; [exact Hcp|]. intros e He. simpl in He.
        destruct (phase_of e); simpl in He; congruence.
      * eapply Forall_impl; [exact Hcp|]. intros e He. simpl in He. lia.
      * eapply Forall_impl; [exact Hhi|]. intros e He. simpl in He. lia.
    + repeat constructor.
    + apply Forall_app. split.
      * eapply Forall_impl; [exact Hcp|]. intros e He. simpl in He. lia.
      * eapply Forall_impl; [exact Hhi|]. intros e He. simpl in He. lia.
  - constructor; [simpl; lia|].
    eapply Forall_impl; [exact Hsz|]. intros e He. simpl in He. lia.
  - constructor; [simpl; lia|]. apply Forall_app. split.
    + eapply Forall_impl; [exact Hcp|]. intros e He. simpl in He. lia.
    + eapply Forall_impl; [exact Hhi|]. intros e He. simpl in He. lia.
Qed.

(** The shape of the log of a whole run, by the way the run ends. *)
Lemma run_shape (w : world) (arguments : list jstring) :
  in_order (log (snd (startNodeWithArguments w arguments boot))) /\
  (forall k, fst (startNodeWithArguments w arguments boot) = Done k ->
     exists sz n buf cp argv,
       Forall sizing sz /\ Forall copying cp /\
       log (snd (startNodeWithArguments w arguments boot))
       = EGetArrayLength :: sz ++ ECalloc n buf :: cp
         ++ [ENodeStart (Z.of_nat (length arguments)) argv k; EFree buf] /\
       heap (snd (startNodeWithArguments w arguments boot)) = None) /\
  (forall f, fst (startNodeWithArguments w arguments boot) = Crash f ->
     Forall before_call (log (snd (startNodeWithArguments w arguments boot)))).
Proof.
  rewrite start_unfold.
  destruct (marshal_log w arguments boot) as (sz & Hsz & [[f Hc]|Hrun]).
  - rewrite Hc. simpl. split; [|split; [discriminate|]].
    + apply (in_order_same _ Sizing). constructor; [reflexivity|exact Hsz].
    + intros _ _. constructor; [unfold before_call; simpl; lia|].
      eapply Forall_impl; [exact Hsz|]. intros e He.
      unfold before_call. unfold sizing in He. rewrite He. simpl. lia.
  - destruct Hrun as (n & buf & cp & Hcp & Hlog & Hbuf).
    assert (Hbefore : Forall before_call (EGetArrayLength :: sz ++ ECalloc n buf :: cp)).
    { constructor; [unfold before_call; simpl; lia|].
      apply Forall_app. split.
      - eapply Forall_impl; [exact Hsz|]. intros e He.
        unfold before_call. unfold sizing in He. rewrite He. simpl. lia.
      - constructor; [unfold before_call; simpl; lia|].
        eapply Forall_impl; [exact Hcp|]. intros e He.
        unfold before_call. unfold copying in He. rewrite He. simpl. lia. }
    destruct (marshal w arguments boot) as [[[[[argc b] cur] argv]|f] m1] eqn:Em;
      simpl in Hlog, Hbuf |- *.
    + destruct (marshal_reached _ _ _ _ _ _ _ _ Em)
        as (_ & _ & _ & _ & _ & -> & _ & _ & _).
      rewrite (Hbuf _ _ _ _ eq_refl), Hlog.
      split; [|split; [|discriminate]].
      * norm_log.
        apply in_order_run; [assumption..| |].
        -- repeat constructor.
        -- repeat constructor; simpl; lia.
      * intros k [= <-]. exists sz, n, buf, cp, argv.
        split; [assumption|]. split; [assumption|]. split; [|reflexivity].
        norm_log. reflexivity.
    + rewrite Hlog. split; [|split; [discriminate|]].
      * rewrite <- (app_nil_r cp). apply in_order_run; [assumption..| |];
          constructor.
      * intros _ _. exact Hbefore.
Qed.

(** C9, as stated, fails on the failure paths.  When a conversion of the
    copy pass returns null, the run ends on that null pointer after the
    block was allocated: the block is still live, and no [free] was
    called. *)
Lemma fault_leaves_block_live :
  fst (startNodeWithArguments flaky_world [1] boot) = Crash NullPointer /\
  In (ECalloc 2 4096) (log (snd (startNodeWithArguments flaky_world [1] boot))) /\
  heap (snd (startNodeWithArguments flaky_world [1] boot))
  = Some {| base := 4096; cells := [NUL; NUL] |} /\
  Forall (fun e => phase_of e <> Release)
         (log (snd (startNodeWithArguments flaky_world [1] boot))).
Proof.
  vm_compute. repeat split; try reflexivity.
  - do 5 right. left. reflexivity.
  - repeat constructor; discriminate.
Qed.

(** C9, amended (phase order and teardown).  In every run of the
    function from a fresh machine, whatever the collaborators answer,
    the logged calls (all of them, or those up to the first write
    outside the block, where the model stops) are in phase order: every
    call of the size pass strictly precedes the allocation, the
    allocation strictly precedes every call and write of the copy pass,
    these strictly precede the call of the runtime, and that call
    strictly precedes the release.  A run that returns [k] has made, in
    this order, the size pass, exactly one [calloc], the copy pass,
    exactly one call of the runtime (which returned [k]) and then, as
    its last step and for every [k], [free] of the pointer [calloc]
    returned; no block is live afterwards.  The function has no failure
    path that releases the buffer: a run that ends on a null pointer has
    neither entered the runtime nor called [free]. *)
Theorem phase_order (w : world) (arguments : list jstring) :
  let run := startNodeWithArguments w arguments boot in
  let l := log (snd run) in
  in_order l /\
  (precedes l Sizing Allocation /\ precedes l Allocation Copying /\
   precedes l Copying Invocation /\ precedes l Invocation Release) /\
  (forall k, fst run = Done k ->
     exists sz n buf cp argv,
       Forall sizing sz /\ Forall copying cp /\
       l = EGetArrayLength :: sz ++ ECalloc n buf :: cp
           ++ [ENodeStart (Z.of_nat (length arguments)) argv k; EFree buf] /\
       heap (snd run) = None) /\
  (fst run = Crash NullPointer -> Forall before_call l).
Proof.
  cbv zeta. destruct (run_shape w arguments) as (Hord & Hdone & Hcrash).
  split; [exact Hord|]. split; [|split; [assumption|apply Hcrash]].
  repeat split; apply in_order_precedes; try exact Hord; simpl; lia.
Qed.

(** ** Failing collaborators *)

Lemma chars_of_None (w : world) (p : pass) (arguments : list jstring) :
  chars_of w p arguments = None <->
  exists arg, In arg arguments /\ GetStringUTFChars w p arg = None.
Proof.
  induction arguments as [|a rest IH].
  - split; [discriminate|]. intros (arg & [] & _).
  - rewrite chars_of_cons. split.
    + destruct (GetStringUTFChars w p a) eqn:Ea.
      * destruct (chars_of w p rest); [discriminate|].
        intros _. destruct (proj1 IH eq_refl) as (arg & Hin & Harg).
        exists arg. split; [now right|assumption].
      * intros _. exists a. split; [now left|assumption].
    + intros (arg & [<-|Hin] & Harg).
      * now rewrite Harg.
      * destruct (GetStringUTFChars w p a); [|reflexivity].
        rewrite (proj2 IH) by eauto. reflexivity.
Qed.




(** C5, as stated, fails.  A conversion that fails only in the copy pass
    stops the run after the allocation, not before it; and a conversion
    that fails in the size pass stops the run with a fault, not with an
    error handed to the caller. *)
Lemma null_conversion_after_allocation :
  startNodeWithArguments flaky_world [1] boot =
  (Crash NullPointer,
   {| heap := Some {| base := 4096; cells := [NUL; NUL] |};
      log := [EGetArrayLength;
              EGetObjectArrayElement SizePass 0; EGetStringUTFChars SizePass 1;
              EReleaseStringUTFChars SizePass 1; EDeleteLocalRef SizePass 1;
              ECalloc 2 4096;
              EGetObjectArrayElement CopyPass 0; EGetStringUTFChars CopyPass 1] |})
  /\
  startNodeWithArguments sample_world [3] boot =
  (Crash NullPointer,
   {| heap := None;
      log := [EGetArrayLength;
              EGetObjectArrayElement SizePass 0; EGetStringUTFChars SizePass 3] |}).
Proof. split; vm_compute; reflexivity. Qed.

(** C5, amended.  The function never tests the result of
    [GetStringUTFChars] and has no conversion error.  When it returns
    null for an argument in the size pass, the run ends on that null
    pointer within the size pass: only calls of the size pass were made,
    so nothing was allocated and the runtime was not entered; nothing is
    returned.  When every conversion of the size pass succeeds and it
    returns null for an argument in the copy pass, the run does not
    return either: it faults in the copy pass, after [calloc] was called
    and before the runtime is entered. *)
Theorem null_conversion (w : world) (arguments : list jstring) :
  ((exists arg, In arg arguments /\ GetStringUTFChars w SizePass arg = None) ->
   exists sz,
     startNodeWithArguments w arguments boot =
     (Crash NullPointer, {| heap := None; log := EGetArrayLength :: sz |}) /\
     Forall sizing sz)
  /\
  ((forall arg, In arg arguments -> GetStringUTFChars w SizePass arg <> None) ->
   (exists arg, In arg arguments /\ GetStringUTFChars w CopyPass arg = None) ->
   exists f m' sz n buf cp,
     startNodeWithArguments w arguments boot = (Crash f, m') /\
     log m' = EGetArrayLength :: sz ++ ECalloc n buf :: cp /\
     Forall sizing sz /\ Forall copying cp).
Proof.
  split.
  - intros Hnull. apply chars_of_None in Hnull.
    destruct (marshal_size_crash w arguments boot Hnull) as (sz & Hc & Hsz).
    exists sz. split; [|assumption]. rewrite start_unfold, Hc. reflexivity.
  - intros Hsize Hnull. apply chars_of_None in Hnull.
    destruct (chars_of w SizePass arguments) as [ss1|] eqn:E1.
    2:{ apply chars_of_None in E1 as (arg & Hin & Harg).
        destruct (Hsize arg Hin Harg). }
    destruct (marshal w arguments boot) as [[[[[argc b] cur] argv]|f] m1] eqn:Em.
    { destruct (marshal_inv _ _ _ _ _ _ _ _ Em) as (ss1' & ss & _ & E2 & _).
      congruence. }
    rewrite start_unfold, Em.
    destruct (marshal_sized w arguments boot ss1 E1) as (sz & Hsz & Heq).
    rewrite Heq in Em. cbv zeta in Em.
    match type of Em with
    | context [copy_pass w 0 arguments ?c ?a ?m2] =>
        destruct (copy_pass_run w arguments 0 c a m2) as (cp & Hlog & Hcp);
        destruct (copy_pass w 0 arguments c a m2) as [[r|f'] m3]
    end; [discriminate|].
    injection Em as -> ->. simpl in Hlog.
    exists f, m1, sz, (buffer_size ss1),
      (fst (after_calloc w (buffer_size ss1) (logged boot (EGetArrayLength :: sz)))),
      cp.
    split; [reflexivity|]. split; [|split; assumption].
    rewrite Hlog. unfold after_calloc, logged.
    destruct (libc_calloc w (buffer_size ss1)); norm_log; reflexivity.
Qed.

Lemma null_conversion_witness :
  (exists sz,
     startNodeWithArguments sample_world [1; 3] boot =
     (Crash NullPointer, {| heap := None; log := EGetArrayLength :: sz |}) /\
     Forall sizing sz)
  /\
  (exists f m' sz n buf cp,
     startNodeWithArguments flaky_world [1] boot = (Crash f, m') /\
     log m' = EGetArrayLength :: sz ++ ECalloc n buf :: cp /\
     Forall sizing sz /\ Forall copying cp).
Proof.
  split.
  - apply (proj1 (null_conversion sample_world [1; 3])).
    exists 3. split; [right; left; reflexivity|reflexivity].
  - apply (proj2 (null_conversion flaky_world [1])).
    + intros arg _. discriminate.
    + exists 1. split; [left; reflexivity|reflexivity].
Defined.

(** ** Two runs on the same bytes: facts *)

Lemma chars_of_same_bytes (w1 w2 : world) (arguments1 arguments2 : list jstring)
    (p : pass) :
  same_bytes w1 arguments1 w2 arguments2 ->
  chars_of w1 p arguments1 = chars_of w2 p arguments2.
Proof. intros H. unfold chars_of. now rewrite (H p). Qed.

Lemma offsets_rel (b o : Z) (ss : list (list byte)) :
  map (fun p => p - b) (offsets (b + o) ss) = offsets o ss.
Proof.
  revert o. induction ss as [|s ss IH]; intros o; simpl; [reflexivity|].
  rewrite <- Z.add_assoc, IH. f_equal. lia.
Qed.

Lemma offsets_rel0 (b : Z) (ss : list (list byte)) :
  map (fun p => p - b) (offsets b ss) = offsets 0 ss.
Proof. rewrite <- (offsets_rel b 0 ss). now rewrite Z.add_0_r. Qed.

Lemma read_cstr_rel (b : Z) (cs : list byte) (p : Z) :
  read_cstr (Some {| base := b; cells := cs |}) p
  = read_cstr (Some {| base := 0; cells := cs |}) (p - b).
Proof.
  unfold read_cstr. simpl.
  replace (p - b - 0) with (p - b) by lia.
  destruct (bool_decide (b <= p < b + Z.of_nat (length cs))) eqn:E1.
  - apply bool_decide_eq_true in E1.
    rewrite bool_decide_eq_true_2 by lia. reflexivity.
  - apply bool_decide_eq_false in E1.
    rewrite bool_decide_eq_false_2 by lia. reflexivity.
Qed.

Lemma argv_strings_rel (b : Z) (cs : list byte) (argv : list Z) :
  argv_strings (Some {| base := b; cells := cs |}) argv
  = argv_strings (Some {| base := 0; cells := cs |}) (map (fun p => p - b) argv).
Proof.
  unfold argv_strings. rewrite map_map. apply map_ext.
  intros p. apply read_cstr_rel.
Qed.

(** A run that reaches the call is matched by the other run. *)
Lemma marshal_simulates (w1 w2 : world) (arguments1 arguments2 : list jstring)
    (m1 m2 m1' : machine) (argc buf1 cur1 : Z) (argv1 : list Z) :
  same_bytes w1 arguments1 w2 arguments2 ->
  same_allocator_verdict w1 w2 ->
  marshal w1 arguments1 m1 = (Done (argc, buf1, cur1, argv1), m1') ->
  exists buf2 cur2 argv2 m2',
    marshal w2 arguments2 m2 = (Done (argc, buf2, cur2, argv2), m2') /\
    option_map cells (heap m1') = option_map cells (heap m2') /\
    map (fun p => p - buf1) argv1 = map (fun p => p - buf2) argv2 /\
    cur1 - buf1 = cur2 - buf2 /\
    argv_strings (heap m1') argv1 = argv_strings (heap m2') argv2.
Proof.
  intros Hbytes Halloc H.
  destruct (marshal_inv _ _ _ _ _ _ _ _ H) as (ss1 & ss & E1 & E2 & Hcase).
  pose proof (chars_of_same_bytes _ _ _ _ SizePass Hbytes) as Hs.
  pose proof (chars_of_same_bytes _ _ _ _ CopyPass Hbytes) as Hc.
  assert (Hlen : length arguments1 = length arguments2).
  { pose proof (f_equal (@length _) (Hbytes SizePass)) as Hl.
    now rewrite !length_map in Hl. }
  destruct Hcase as [->|[Hbuf Hfit]].
  - destruct arguments2; [|discriminate].
    rewrite marshal_nil in H. injection H as <- <- <- <- <-.
    rewrite marshal_nil. eexists _, _, _, _. split; [reflexivity|].
    unfold after_calloc. specialize (Halloc 0).
    destruct (libc_calloc w1 0) as [b1|], (libc_calloc w2 0) as [b2|]; simpl.
    + repeat split; lia.
    + destruct (proj1 Halloc) as [? [=]]. eauto.
    + destruct (proj2 Halloc) as [? [=]]. eauto.
    + repeat split.
  - destruct (proj1 (Halloc (buffer_size ss1))) as [buf2 Hbuf2]; [eauto|].
    rewrite Hs in E1. rewrite Hc in E2.
    destruct (marshal_Done w2 arguments2 m2 ss1 ss buf2 E1 E2 Hbuf2 Hfit)
      as (sz2 & cp2 & _ & _ & ->).
    rewrite <- Hs in E1. rewrite <- Hc in E2.
    destruct (marshal_Done w1 arguments1 m1 ss1 ss buf1 E1 E2 Hbuf Hfit)
      as (sz1 & cp1 & _ & _ & Heq).
    rewrite Heq in H. injection H as <- <- <- <-.
    eexists _, _, _, _. split; [rewrite Hlen; reflexivity|].
    cbn [heap option_map cells]. split; [reflexivity|].
    rewrite !offsets_rel0. split; [reflexivity|]. split; [lia|].
    rewrite (argv_strings_rel buf1), (argv_strings_rel buf2), !offsets_rel0.
    reflexivity.
Qed.

Lemma start_simulates (w1 w2 : world) (arguments1 arguments2 : list jstring)
    (m1 m2 : machine) (k : Z) :
  same_bytes w1 arguments1 w2 arguments2 ->
  same_runtime w1 w2 ->
  same_allocator_verdict w1 w2 ->
  fst (startNodeWithArguments w1 arguments1 m1) = Done k ->
  fst (startNodeWithArguments w2 arguments2 m2) = Done k.
Proof.
  intros Hbytes Hrun Halloc H. rewrite start_unfold in H.
  destruct (marshal w1 arguments1 m1) as [[[[[argc b] cur] argv]|f] m1'] eqn:Em;
    [|discriminate].
  destruct (marshal_simulates w1 w2 arguments1 arguments2 m1 m2 m1'
              argc b cur argv Hbytes Halloc Em)
    as (buf2 & cur2 & argv2 & m2' & Em2 & _ & _ & _ & Hstr).
  rewrite start_unfold, Em2. simpl in H |- *.
  injection H as <-. f_equal. symmetry. now apply Hrun.
Qed.

(** Two runs on the same bytes that both reach the call hand the callee
    the same thing. *)
Lemma marshal_agrees (w1 w2 : world) (arguments1 arguments2 : list jstring)
    (m1 m2 m1' m2' : machine) (argc1 buf1 cur1 argc2 buf2 cur2 : Z)
    (argv1 argv2 : list Z) :
  same_bytes w1 arguments1 w2 arguments2 ->
  marshal w1 arguments1 m1 = (Done (argc1, buf1, cur1, argv1), m1') ->
  marshal w2 arguments2 m2 = (Done (argc2, buf2, cur2, argv2), m2') ->
  argc1 = argc2 /\
  buffer_bytes (heap m1') = buffer_bytes (heap m2') /\
  map (fun p => p - buf1) argv1 = map (fun p => p - buf2) argv2 /\
  cur1 - buf1 = cur2 - buf2 /\
  argv_strings (heap m1') argv1 = argv_strings (heap m2') argv2.
Proof.
  intros Hbytes H1 H2.
  pose proof (chars_of_same_bytes _ _ _ _ SizePass Hbytes) as Hs.
  pose proof (chars_of_same_bytes _ _ _ _ CopyPass Hbytes) as Hc.
  assert (Hlen : length arguments1 = length arguments2).
  { pose proof (f_equal (@length _) (Hbytes SizePass)) as Hl.
    now rewrite !length_map in Hl. }
  destruct (marshal_reached _ _ _ _ _ _ _ _ H1)
    as (ss1 & ss & E1 & E2 & _ & -> & -> & -> & Hh1).
  destruct (marshal_reached _ _ _ _ _ _ _ _ H2)
    as (ss1' & ss' & E1' & E2' & _ & -> & -> & -> & Hh2).
  assert (ss1' = ss1) by congruence. assert (ss' = ss) by congruence.
  subst ss1' ss'.
  split; [now rewrite Hlen|]. rewrite !offsets_rel0.
  assert (Hstr : forall buf h,
             (ss = [] /\ h = None) \/
             h = Some {| base := buf;
                         cells := packed ss ++
                                  replicate (Z.to_nat (buffer_size ss1 - total_size ss)) NUL |} ->
             buffer_bytes h
             = (if decide (ss = []) then buffer_bytes h
                else packed ss ++
                     replicate (Z.to_nat (buffer_size ss1 - total_size ss)) NUL) /\
             argv_strings h (offsets buf ss)
             = argv_strings
                 (Some {| base := 0;
                          cells := packed ss ++
                                   replicate (Z.to_nat (buffer_size ss1 - total_size ss)) NUL |})
                 (offsets 0 ss)).
  { intros buf h [[Hnil Hnone]|Hsome]; subst.
    - split; reflexivity.
    - split; [now destruct (decide (ss = []))|].
      now rewrite argv_strings_rel, offsets_rel0. }
  destruct (Hstr buf1 _ Hh1) as [Hb1 Hs1], (Hstr buf2 _ Hh2) as [Hb2 Hs2].
  rewrite Hs1, Hs2. repeat split; try lia.
  destruct (decide (ss = [])) as [->|Hne].
  - assert (Hsize : buffer_size ss1 = 0).
    { pose proof (length_chars_of _ _ _ _ E2) as Hnil.
      destruct arguments1; [|discriminate].
      injection E1 as <-. reflexivity. }
    destruct Hh1 as [[_ Hh1]|Hh1], Hh2 as [[_ Hh2]|Hh2];
      rewrite Hh1, Hh2; simpl; rewrite ?Hsize; reflexivity.
  - now rewrite Hb1, Hb2.
Qed.

(** C10 (determinism).  Take two runs whose argument arrays convert,
    element by element and in each loop, to the same byte sequences, and
    whose runtime is one function of the count and of the strings behind
    [argv]; the references, the block address and the machine they start
    from may differ.  When both reach the call of the runtime they hand
    it the same count, the same bytes in the block, the same offsets of
    the [argv] entries and of the final cursor from the start of the
    block, and the same strings behind [argv]; and when both return, they
    return the same value.  If moreover the two allocators succeed on the
    same requests, one run returns [k] exactly when the other does. *)
Theorem marshalling_deterministic (w1 w2 : world)
    (arguments1 arguments2 : list jstring) (m1 m2 : machine) :
  same_bytes w1 arguments1 w2 arguments2 ->
  same_runtime w1 w2 ->
  (forall argc1 buf1 cur1 argv1 m1' argc2 buf2 cur2 argv2 m2',
      marshal w1 arguments1 m1 = (Done (argc1, buf1, cur1, argv1), m1') ->
      marshal w2 arguments2 m2 = (Done (argc2, buf2, cur2, argv2), m2') ->
      argc1 = argc2 /\
      buffer_bytes (heap m1') = buffer_bytes (heap m2') /\
      map (fun p => p - buf1) argv1 = map (fun p => p - buf2) argv2 /\
      cur1 - buf1 = cur2 - buf2 /\
      argv_strings (heap m1') argv1 = argv_strings (heap m2') argv2)
  /\
  (forall k1 k2,
      fst (startNodeWithArguments w1 arguments1 m1) = Done k1 ->
      fst (startNodeWithArguments w2 arguments2 m2) = Done k2 ->
      k1 = k2)
  /\
  (same_allocator_verdict w1 w2 ->
   forall k,
     fst (startNodeWithArguments w1 arguments1 m1) = Done k <->
     fst (startNodeWithArguments w2 arguments2 m2) = Done k).
Proof.
  intros Hbytes Hrun. split; [|split].
  - intros. eapply marshal_agrees; eassumption.
  - intros k1 k2 H1 H2. rewrite start_unfold in H1, H2.
    destruct (marshal w1 arguments1 m1) as [[[[[argc1 b1] cur1] argv1]|f1] m1'] eqn:Em1;
      [|discriminate].
    destruct (marshal w2 arguments2 m2) as [[[[[argc2 b2] cur2] argv2]|f2] m2'] eqn:Em2;
      [|discriminate].
    destruct (marshal_agrees _ _ _ _ _ _ _ _ _ _ _ _ _ _ _ _ Hbytes Em1 Em2)
      as (-> & _ & _ & _ & Hstr).
    simpl in H1, H2. injection H1 as <-. injection H2 as <-.
    now apply Hrun.
  - intros Halloc k. split; apply start_simulates; try assumption.
    + intros p. symmetry. apply Hbytes.
    + intros argc argv1 h1 argv2 h2 Hs. symmetry. now apply Hrun.
    + intros n. symmetry. apply Halloc.
Qed.

Lemma first_length_same_runtime : same_runtime world_a world_b.
Proof.
  intros argc argv1 h1 argv2 h2 Hs. simpl. unfold first_length.
  now rewrite Hs.
Qed.

Lemma world_a_b_same_bytes : same_bytes world_a [1; 2] world_b [7; 8].
Proof. intros p. reflexivity. Qed.

Lemma world_a_b_same_verdict : same_allocator_verdict world_a world_b.
Proof. intros n. simpl. split; intros _; eauto. Qed.

Example world_a_returns :
  fst (startNodeWithArguments world_a [1; 2] boot) = Done 4.
Proof. vm_compute. reflexivity. Qed.

Lemma marshalling_deterministic_witness :
  (2 = 2 /\
   buffer_bytes (heap (snd (marshal world_a [1; 2] boot)))
   = buffer_bytes (heap (snd (marshal world_b [7; 8] boot))) /\
   map (fun p => p - 4096) [4096; 4101] = map (fun p => p - 8192) [8192; 8197] /\
   4111 - 4096 = 8207 - 8192 /\
   argv_strings (heap (snd (marshal world_a [1; 2] boot))) [4096; 4101]
   = argv_strings (heap (snd (marshal world_b [7; 8] boot))) [8192; 8197])
  /\
  (fst (startNodeWithArguments world_a [1; 2] boot) = Done 4 <->
   fst (startNodeWithArguments world_b [7; 8] boot) = Done 4).
Proof.
  destruct (marshalling_deterministic world_a world_b [1; 2] [7; 8] boot boot
              world_a_b_same_bytes first_length_same_runtime)
    as (Hbuf & _ & Hret).
  split.
  - apply Hbuf; vm_compute; reflexivity.
  - apply Hret. exact world_a_b_same_verdict.
Defined.

(** ** Sizes beyond [int] *)

Lemma strlen_replicate (n : nat) (c : byte) :
  c <> NUL -> strlen (replicate n c) = n.
Proof.
  intros Hc. induction n as [|n IH]; [reflexivity|].
  cbn [replicate strlen]. destruct (Byte.eqb c NUL) eqn:E.
  - apply byte_dec_bl in E. contradiction.
  - now rewrite IH.
Qed.

Lemma chars_of_replicate (w : world) (p : pass) (arg : jstring)
    (s : list byte) (n : nat) :
  GetStringUTFChars w p arg = Some s ->
  chars_of w p (replicate n arg) = Some (replicate n s).
Proof.
  intros Hs. induction n as [|n IH]; [reflexivity|].
  cbn [replicate]. now rewrite chars_of_cons, Hs, IH.
Qed.

Lemma total_size_replicate (n : nat) (s : list byte) :
  total_size (replicate n s) = Z.of_nat n * slot_size s.
Proof.
  induction n as [|n IH]; [reflexivity|].
  cbn [replicate total_size]. rewrite IH. lia.
Qed.

Lemma slot_size_big_string : slot_size big_string = 1048576.
Proof.
  unfold slot_size, big_string.
  rewrite strlen_replicate by discriminate. rewrite Z2Nat.id by lia. reflexivity.
Qed.

Lemma total_size_big : total_size (replicate 4096 big_string) = 4294967296.
Proof. rewrite total_size_replicate, slot_size_big_string. reflexivity. Qed.

Lemma buffer_size_big : buffer_size (replicate 4096 big_string) = 0.
Proof. unfold buffer_size. rewrite total_size_big. reflexivity. Qed.

(** C2 at an array whose slots add up to 2^32 bytes: every conversion
    succeeds, the first loop runs to its end, and the size it has
    computed is 0, not the sum of the slot sizes. *)
Theorem size_pass_wraps :
  chars_of big_world SizePass big_arguments = Some (replicate 4096 big_string) /\
  total_size (replicate 4096 big_string) = 4294967296 /\
  fst (size_pass big_world 0 big_arguments 0 (logged boot [EGetArrayLength]))
  = Done 0.
Proof.
  assert (E : chars_of big_world SizePass big_arguments
              = Some (replicate 4096 big_string))
    by (apply chars_of_replicate; reflexivity).
  split; [exact E|]. split; [exact total_size_big|].
  rewrite size_pass_result by (unfold INT_MIN, INT_MAX; lia).
  rewrite E, total_size_big. reflexivity.
Qed.

(** C7 at the same array, with the same bytes in both loops and an
    allocator that grants the request: the block is asked for with size
    0, and the first [memcpy] of the copy pass, of 1048575 bytes, leaves
    it. *)
Theorem copy_pass_overruns :
  chars_of big_world SizePass big_arguments
  = chars_of big_world CopyPass big_arguments /\
  exists m',
    startNodeWithArguments big_world big_arguments boot = (Crash OutOfBounds, m') /\
    heap m' = Some {| base := 4096; cells := [] |} /\
    exists sz,
      log m' = EGetArrayLength :: sz
               ++ [ECalloc 0 4096; EGetObjectArrayElement CopyPass 0;
                   EGetStringUTFChars CopyPass 1; EMemcpy 4096 1048575].
Proof.
  assert (E : forall p, chars_of big_world p big_arguments
                        = Some (replicate 4096 big_string))
    by (intros p; apply chars_of_replicate; reflexivity).
  split; [now rewrite !E|].
  rewrite start_unfold.
  destruct (marshal_sized big_world big_arguments boot _ (E SizePass))
    as (sz & Hsz & ->).
  rewrite buffer_size_big. cbv zeta. unfold after_calloc.
  cbn [libc_calloc big_world fst snd].
  change big_arguments with (1 :: replicate 4095 1).
  rewrite copy_pass_cons.
  cbn [GetStringUTFChars big_world heap base cells]. cbv zeta.
  rewrite bool_decide_eq_false_2.
  - eexists. split; [reflexivity|]. split; [reflexivity|].
    exists sz. unfold logged. cbn [log boot heap].
    unfold big_string. rewrite strlen_replicate by discriminate.
    rewrite Z2Nat.id by lia. norm_log. reflexivity.
  - rewrite length_c_string. unfold big_string.
    rewrite strlen_replicate by discriminate. rewrite length_replicate. lia.
Qed.

(** ** Sizes within [int] *)

(** Every write of a second loop that ran to its end was inside the
    block. *)
Lemma copy_pass_writes_inside (w : world) (arguments : list jstring) :
  forall (i current : Z) (argv : list Z) (m m' : machine) (b : block)
         (r : Z * list Z),
    heap m = Some b ->
    copy_pass w i arguments current argv m = (Done r, m') ->
    exists evs,
      log m' = log m ++ evs /\
      Forall (inside (base b) (base b + Z.of_nat (length (cells b)))) evs.
Proof.
  induction arguments as [|arg rest IH]; intros i current argv m m' b r Hm H.
  - injection H as _ <-. exists []. split; [now rewrite app_nil_r|constructor].
  - rewrite copy_pass_cons in H.
    destruct (GetStringUTFChars w CopyPass arg) as [s|]; [|discriminate].
    cbv zeta in H. rewrite Hm in H.
    case_bool_decide as H1; [|discriminate].
    case_bool_decide as H2; [|discriminate].
    rewrite length_c_string in H1.
    rewrite length_splice in H2 by (rewrite length_c_string; lia).
    simpl length in H2.
    eapply (IH _ _ _ _ _ {| base := base b; cells := _ |}) in H; [|reflexivity].
    destruct H as (evs & Hlog & Hevs).
    simpl in Hlog, Hevs.
    rewrite !length_splice in Hevs
      by (rewrite ?length_splice, ?length_c_string
            by (rewrite length_c_string; lia); simpl; lia).
    eexists. split; [rewrite Hlog, <- app_assoc; reflexivity|].
    apply Forall_app. split; [|exact Hevs].
    repeat constructor; simpl; lia.
Qed.

(** The log of a run that reached the call, with every write of the copy
    pass inside the block [calloc] was asked for. *)
Lemma marshal_writes_inside (w : world) (arguments : list jstring)
    (m m' : machine) (argc buf cur : Z) (argv : list Z) :
  marshal w arguments m = (Done (argc, buf, cur, argv), m') ->
  exists ss1 sz cp,
    chars_of w SizePass arguments = Some ss1 /\
    Forall sizing sz /\
    log m' = log m ++ EGetArrayLength :: sz ++ ECalloc (buffer_size ss1) buf :: cp /\
    Forall (inside buf (buf + buffer_size ss1)) cp.
Proof.
  intros H.
  destruct (chars_of w SizePass arguments) as [ss1|] eqn:E1.
  2:{ destruct (marshal_size_crash w arguments m E1) as (sz & Hc & _).
      rewrite Hc in H. discriminate. }
  destruct (marshal_sized w arguments m ss1 E1) as (sz & Hsz & Hm).
  rewrite Hm in H. clear Hm. cbv zeta in H.
  pose proof (buffer_size_nonneg ss1) as Hnn.
  exists ss1, sz. unfold after_calloc in H.
  destruct (libc_calloc w (buffer_size ss1)) as [b|]; simpl fst in H; simpl snd in H.
  - destruct (copy_pass _ _ _ _ _ _) as [[r|f] m3] eqn:Ecp; [|discriminate].
    injection H as _ <- _ _ <-.
    eapply copy_pass_writes_inside in Ecp; [|reflexivity].
    destruct Ecp as (cp & Hlog & Hcp). simpl in Hlog, Hcp.
    rewrite length_replicate, Z2Nat.id in Hcp by lia.
    exists cp. split; [reflexivity|]. split; [assumption|]. split; [|assumption].
    rewrite Hlog. norm_log. reflexivity.
  - destruct arguments as [|arg rest].
    + simpl in H. injection H as _ <- _ _ <-. exists [].
      split; [reflexivity|]. split; [assumption|]. split; [|constructor].
      norm_log. reflexivity.
    + match type of H with
      | context [copy_pass w 0 (arg :: rest) ?c ?a ?m2] =>
          pose proof (copy_pass_null w arg rest 0 c a m2 eq_refl) as Hf;
          destruct (copy_pass w 0 (arg :: rest) c a m2) as [r0 m3]
      end.
      simpl in Hf. subst r0. discriminate.
Qed.

(** Within [int] the size computed is exactly the sum of the slot sizes:
    when every argument converts to the same bytes in both loops, these
    sizes add up to at most [INT_MAX] and [calloc] returns a block, the
    first loop ends with that sum, the block has that many bytes, and
    [argv] has one entry per argument. *)
Theorem packed_size_exact (w : world) (arguments : list jstring) (m : machine)
    (ss : list (list byte)) :
  chars_of w SizePass arguments = Some ss ->
  chars_of w CopyPass arguments = Some ss ->
  total_size ss <= INT_MAX ->
  is_Some (libc_calloc w (total_size ss)) ->
  fst (size_pass w 0 arguments 0 (logged m [EGetArrayLength])) = Done (total_size ss) /\
  exists buf cur argv m',
    marshal w arguments m = (Done (Z.of_nat (length arguments), buf, cur, argv), m') /\
    length argv = length arguments /\
    option_map (fun b => Z.of_nat (length (cells b))) (heap m') = Some (total_size ss).
Proof.
  intros E1 E2 Hfit Hbuf. split.
  - rewrite size_pass_result by (unfold INT_MIN, INT_MAX; lia).
    rewrite E1, Z.add_0_l. f_equal. apply to_int_small.
    pose proof (total_size_nonneg ss). unfold INT_MIN, INT_MAX in *. lia.
  - destruct (marshal_completes w arguments m ss E1 E2 Hfit Hbuf)
      as (buf & sz & cp & _ & _ & _ & ->).
    eexists _, _, _, _. split; [reflexivity|].
    split; [rewrite length_offsets; now apply length_chars_of in E2|].
    simpl. now rewrite length_packed.
Qed.

Lemma packed_size_exact_witness :
  fst (size_pass sample_world 0 [1; 2] 0 (logged boot [EGetArrayLength])) = Done 15 /\
  exists buf cur argv m',
    marshal sample_world [1; 2] boot = (Done (2, buf, cur, argv), m') /\
    length argv = 2%nat /\
    option_map (fun b => Z.of_nat (length (cells b))) (heap m') = Some 15.
Proof.
  apply (packed_size_exact sample_world [1; 2] boot
           [list_byte_of_string "node"; list_byte_of_string "--version"]).
  - reflexivity.
  - reflexivity.
  - vm_compute. discriminate.
  - simpl. eauto.
Defined.

(** Within [int] the cursor does not drift: under the same conditions,
    the cursor starts each turn at [argv[i]], advances by the measured
    length plus one, and ends at [args_buffer] plus the size of the
    block; and every [memcpy] and every store of a terminator lies
    inside the block. *)
Theorem cursor_no_drift (w : world) (arguments : list jstring) (m : machine)
    (ss : list (list byte)) :
  chars_of w SizePass arguments = Some ss ->
  chars_of w CopyPass arguments = Some ss ->
  total_size ss <= INT_MAX ->
  is_Some (libc_calloc w (total_size ss)) ->
  exists buf argv m' sz cp,
    marshal w arguments m =
    (Done (Z.of_nat (length arguments), buf, buf + total_size ss, argv), m') /\
    log m' = log m ++ EGetArrayLength :: sz ++ ECalloc (total_size ss) buf :: cp /\
    Forall (inside buf (buf + total_size ss)) cp /\
    forall (i : nat) (s : list byte),
      ss !! i = Some s ->
      exists p,
        argv !! i = Some p /\
        (buf + total_size ss = p + (Z.of_nat (strlen s) + 1) \/
         argv !! S i = Some (p + (Z.of_nat (strlen s) + 1))).
Proof.
  intros E1 E2 Hfit Hbuf.
  destruct (marshal_completes w arguments m ss E1 E2 Hfit Hbuf)
    as (buf & sz0 & cp0 & _ & _ & _ & Heq).
  destruct (marshal_writes_inside _ _ _ _ _ _ _ _ Heq)
    as (ss1 & sz & cp & E1' & _ & Hlog & Hcp).
  assert (ss1 = ss) by congruence. subst ss1.
  rewrite (buffer_size_exact ss Hfit) in Hlog, Hcp.
  eexists buf, _, _, sz, cp. split; [exact Heq|].
  split; [exact Hlog|]. split; [exact Hcp|].
  intros i s Hi. pose proof (lookup_lt_Some _ _ _ Hi) as Hlt.
  exists (buf + total_size (take i ss)).
  split; [now apply lookup_offsets|].
  pose proof (total_size_take_S ss i s Hi) as HS. unfold slot_size in HS.
  destruct (Nat.eq_dec (S i) (length ss)) as [Hlast|Hmore].
  - left. rewrite Hlast, firstn_all in HS. lia.
  - right. rewrite lookup_offsets by lia. f_equal. lia.
Qed.

Lemma cursor_no_drift_witness :
  exists buf argv m' sz cp,
    marshal sample_world [1; 2] boot = (Done (2, buf, buf + 15, argv), m') /\
    log m' = log boot ++ EGetArrayLength :: sz ++ ECalloc 15 buf :: cp /\
    Forall (inside buf (buf + 15)) cp /\
    forall (i : nat) (s : list byte),
      [list_byte_of_string "node"; list_byte_of_string "--version"] !! i = Some s ->
      exists p,
        argv !! i = Some p /\
        (buf + 15 = p + (Z.of_nat (strlen s) + 1) \/
         argv !! S i = Some (p + (Z.of_nat (strlen s) + 1))).
Proof.
  apply (cursor_no_drift sample_world [1; 2] boot
           [list_byte_of_string "node"; list_byte_of_string "--version"]).
  - reflexivity.
  - reflexivity.
  - vm_compute. discriminate.
  - simpl. eauto.
Defined.


(** ** When the runtime is entered *)

(** The run reaches the call of the runtime with every write of the copy
    loop inside the block exactly when no conversion of either loop is
    null and, unless the array is empty, [calloc] returns a block and
    the strings of the copy loop fit in the size the size loop
    computed. *)
Theorem reaches_call_safely_iff (w : world) (arguments : list jstring)
    (m : machine) :
  (exists argc buf cur argv m' ss1 sz cp,
      marshal w arguments m = (Done (argc, buf, cur, argv), m') /\
      chars_of w SizePass arguments = Some ss1 /\
      log m' = log m ++ EGetArrayLength :: sz
                     ++ ECalloc (buffer_size ss1) buf :: cp /\
      Forall (inside buf (buf + buffer_size ss1)) cp) <->
  (exists ss1 ss,
      chars_of w SizePass arguments = Some ss1 /\
      chars_of w CopyPass arguments = Some ss /\
      (arguments = [] \/
       (is_Some (libc_calloc w (buffer_size ss1)) /\
        total_size ss <= buffer_size ss1))).
Proof.
  split.
  - intros (argc & buf & cur & argv & m' & _ & _ & _ & Em & _).
    destruct (marshal_inv _ _ _ _ _ _ _ _ Em) as (ss1 & ss & E1 & E2 & Hcase).
    exists ss1, ss. split; [assumption|]. split; [assumption|].
    destruct Hcase as [->|[Hbuf Hfit]]; [now left|right]. eauto.
  - intros (ss1 & ss & E1 & E2 & Hcase).
    assert (Hdone : exists argc buf cur argv m',
               marshal w arguments m = (Done (argc, buf, cur, argv), m')).
    { destruct Hcase as [->|[[buf Hbuf] Hfit]].
      - rewrite marshal_nil. eauto 10.
      - destruct (marshal_Done w arguments m ss1 ss buf E1 E2 Hbuf Hfit)
          as (sz & cp & _ & _ & ->).
        eauto 10. }
    destruct Hdone as (argc & buf & cur & argv & m' & Em).
    destruct (marshal_writes_inside _ _ _ _ _ _ _ _ Em)
      as (ss1' & sz & cp & E1' & _ & Hlog & Hcp).
    exists argc, buf, cur, argv, m', ss1', sz, cp. auto.
Qed.

(** The size loop computes the sum of the slot sizes exactly when that
    sum is at most [INT_MAX]. *)
Theorem size_exact_iff (w : world) (arguments : list jstring) (m : machine)
    (ss : list (list byte)) :
  chars_of w SizePass arguments = Some ss ->
  fst (size_pass w 0 arguments 0 m) = Done (total_size ss) <->
  total_size ss <= INT_MAX.
Proof.
  intros E. rewrite size_pass_result by (unfold INT_MIN, INT_MAX; lia).
  rewrite E, Z.add_0_l. pose proof (total_size_nonneg ss) as Hnn. split.
  - intros [= H]. pose proof (to_int_range (total_size ss)). lia.
  - intros H. f_equal. apply to_int_small. unfold INT_MIN. lia.
Qed.

Lemma size_exact_iff_witness :
  fst (size_pass sample_world 0 [1; 2] 0 boot) = Done 15 <-> 15 <= INT_MAX.
Proof.
  exact (size_exact_iff sample_world [1; 2] boot
           [list_byte_of_string "node"; list_byte_of_string "--version"] eq_refl).
Defined.

(** ** Strings that change between the loops *)

(** A second loop whose slots do not all fit between the cursor and the
    end of the block faults on a write outside the block. *)
Lemma copy_pass_outgrows (w : world) (arguments : list jstring) :
  forall (ss : list (list byte)) (i current : Z) (argv : list Z)
         (m : machine) (b : block),
    chars_of w CopyPass arguments = Some ss ->
    heap m = Some b ->
    base b <= current <= base b + Z.of_nat (length (cells b)) ->
    base b + Z.of_nat (length (cells b)) < current + total_size ss ->
    fst (copy_pass w i arguments current argv m) = Crash OutOfBounds.
Proof.
  induction arguments as [|arg rest IH];
    intros ss i current argv m b Hss Hm Hcur Hbig.
  - injection Hss as <-. simpl in Hbig. lia.
  - rewrite chars_of_cons in Hss.
    destruct (GetStringUTFChars w CopyPass arg) as [s|] eqn:Earg; [|discriminate].
    destruct (chars_of w CopyPass rest) as [ss'|] eqn:Erest; [|discriminate].
    injection Hss as <-. simpl total_size in Hbig. unfold slot_size in Hbig.
    rewrite copy_pass_cons, Earg. cbv zeta. rewrite Hm.
    rewrite length_c_string.
    case_bool_decide as H1; [|reflexivity].
    rewrite length_splice by (rewrite length_c_string; lia).
    simpl length.
    case_bool_decide as H2; [|reflexivity].
    eapply (IH ss' _ _ _ _ {| base := base b; cells := _ |});
      [reflexivity|reflexivity| |]; simpl;
      rewrite !length_splice
        by (rewrite ?length_splice, ?length_c_string
              by (rewrite length_c_string; lia); simpl; lia);
      lia.
Qed.

(** In that case the writes of the loop are inside the block up to one
    that is not, the last the model follows. *)
Lemma copy_pass_first_outside (w : world) (arguments : list jstring) :
  forall (ss : list (list byte)) (i current : Z) (argv : list Z)
         (m : machine) (b : block),
    chars_of w CopyPass arguments = Some ss ->
    heap m = Some b ->
    base b <= current <= base b + Z.of_nat (length (cells b)) ->
    base b + Z.of_nat (length (cells b)) < current + total_size ss ->
    exists pre e,
      log (snd (copy_pass w i arguments current argv m)) = log m ++ pre ++ [e] /\
      Forall copying (pre ++ [e]) /\
      Forall (inside (base b) (base b + Z.of_nat (length (cells b)))) pre /\
      ~ inside (base b) (base b + Z.of_nat (length (cells b))) e.
Proof.
  induction arguments as [|arg rest IH];
    intros ss i current argv m b Hss Hm Hcur Hbig.
  - injection Hss as <-. simpl in Hbig. lia.
  - rewrite chars_of_cons in Hss.
    destruct (GetStringUTFChars w CopyPass arg) as [s|] eqn:Earg; [|discriminate].
    destruct (chars_of w CopyPass rest) as [ss'|] eqn:Erest; [|discriminate].
    injection Hss as <-. simpl total_size in Hbig. unfold slot_size in Hbig.
    rewrite copy_pass_cons, Earg. cbv zeta. rewrite Hm.
    rewrite length_c_string.
    case_bool_decide as H1.
    2:{ exists [EGetObjectArrayElement CopyPass i; EGetStringUTFChars CopyPass arg],
          (EMemcpy current (Z.of_nat (strlen s))).
        split; [reflexivity|]. split; [repeat constructor|].
        split; [repeat constructor|]. exact H1. }
    rewrite length_splice by (rewrite length_c_string; lia).
    simpl length.
    case_bool_decide as H2.
    2:{ exists [EGetObjectArrayElement CopyPass i; EGetStringUTFChars CopyPass arg;
                EMemcpy current (Z.of_nat (strlen s))],
          (EStore (current + Z.of_nat (strlen s))).
        split; [reflexivity|]. split; [repeat constructor|].
        split; [repeat constructor; simpl; lia|]. simpl. lia. }
    match goal with
    | |- context [copy_pass w ?i' rest ?c' ?a' (stored m b ?cs ?evs0)] =>
        destruct (IH ss' i' c' a' (stored m b cs evs0)
                    {| base := base b; cells := cs |} eq_refl eq_refl)
          as (pre & e & Hlog & Hcp & Hpre & He)
    end.
    + simpl.
      rewrite !length_splice
        by (rewrite ?length_splice, ?length_c_string
              by (rewrite length_c_string; lia); simpl; lia).
      lia.
    + simpl.
      rewrite !length_splice
        by (rewrite ?length_splice, ?length_c_string
              by (rewrite length_c_string; lia); simpl; lia).
      lia.
    + simpl in Hpre, He.
      rewrite !length_splice in Hpre, He
        by (rewrite ?length_splice, ?length_c_string
              by (rewrite length_c_string; lia); simpl; lia).
      exists ([EGetObjectArrayElement CopyPass i; EGetStringUTFChars CopyPass arg;
               EMemcpy current (Z.of_nat (strlen s));
               EStore (current + Z.of_nat (strlen s));
               EReleaseStringUTFChars CopyPass arg; EDeleteLocalRef CopyPass arg]
              ++ pre), e.
      split; [|split; [|split; [|exact He]]].
      * rewrite Hlog. unfold stored. cbn [log].
        rewrite <- !app_assoc. reflexivity.
      * rewrite <- app_assoc. apply Forall_app.
        split; [repeat constructor|exact Hcp].
      * apply Forall_app. split; [|exact Hpre].
        repeat constructor; simpl; lia.
Qed.

(** The function has no guard against strings that grow between the two
    loops: when every conversion succeeds and [calloc] returns a block,
    but the strings of the copy loop need more bytes than the size loop
    computed, the copy loop makes a write outside the block: after the
    size pass and the allocation, the writes of the copy loop are inside
    the block up to a [memcpy] or a store of a terminator that is not,
    the last call the model follows. *)
Theorem strings_outgrow_block (w : world) (arguments : list jstring)
    (ss1 ss : list (list byte)) (buf : Z) :
  chars_of w SizePass arguments = Some ss1 ->
  chars_of w CopyPass arguments = Some ss ->
  libc_calloc w (buffer_size ss1) = Some buf ->
  buffer_size ss1 < total_size ss ->
  exists sz pre e,
    Forall sizing sz /\ Forall copying (pre ++ [e]) /\
    Forall (inside buf (buf + buffer_size ss1)) pre /\
    ~ inside buf (buf + buffer_size ss1) e /\
    log (snd (startNodeWithArguments w arguments boot))
    = EGetArrayLength :: sz ++ ECalloc (buffer_size ss1) buf :: pre ++ [e].
Proof.
  intros E1 E2 Hbuf Hbig.
  rewrite start_unfold.
  destruct (marshal_sized w arguments boot ss1 E1) as (sz & Hsz & ->).
  cbv zeta. unfold after_calloc. rewrite Hbuf. simpl fst. simpl snd.
  pose proof (buffer_size_nonneg ss1) as Hnn.
  match goal with
  | |- context [copy_pass w 0 arguments buf ?a ?m2] =>
      pose proof (copy_pass_outgrows w arguments ss 0 buf a m2
                    {| base := buf;
                       cells := replicate (Z.to_nat (buffer_size ss1)) NUL |}
                    E2 eq_refl) as Hout;
      destruct (copy_pass_first_outside w arguments ss 0 buf a m2
                  {| base := buf;
                     cells := replicate (Z.to_nat (buffer_size ss1)) NUL |}
                  E2 eq_refl) as (pre & e & Hlog & Hcp & Hpre & He);
      [simpl; rewrite length_replicate; lia
      |simpl; rewrite length_replicate; lia|];
      destruct (copy_pass w 0 arguments buf a m2) as [r m3]
  end.
  simpl in Hout, Hlog, Hpre, He.
  rewrite length_replicate, Z2Nat.id in Hout, Hpre, He by lia.
  rewrite Hout by lia. cbn [snd].
  exists sz, pre, e. split; [assumption|]. split; [assumption|].
  split; [assumption|]. split; [assumption|].
  rewrite Hlog. norm_log. reflexivity.
Qed.

Lemma strings_outgrow_block_witness :
  exists sz pre e,
    Forall sizing sz /\ Forall copying (pre ++ [e]) /\
    Forall (inside 4096 (4096 + buffer_size [list_byte_of_string "a"])) pre /\
    ~ inside 4096 (4096 + buffer_size [list_byte_of_string "a"]) e /\
    log (snd (startNodeWithArguments growing_world [1] boot))
    = EGetArrayLength :: sz
        ++ ECalloc (buffer_size [list_byte_of_string "a"]) 4096 :: pre ++ [e].
Proof.
  apply (strings_outgrow_block growing_world [1]
           [list_byte_of_string "a"] [list_byte_of_string "abc"] 4096).
  - reflexivity.
  - reflexivity.
  - reflexivity.
  - vm_compute. reflexivity.
Defined.

(** ** The bytes of the block *)



(** ** The JNI resources in flight: facts *)

Lemma jni_run_app (st : jni_state) (l1 l2 : list event) :
  jni_run st (l1 ++ l2) =
  match jni_run st l1 with
  | Some st' => jni_run st' l2
  | None => None
  end.
Proof.
  revert st. induction l1 as [|e l1 IH]; intros st; simpl; [reflexivity|].
  destruct (jni_step st e); [apply IH|reflexivity].
Qed.

(** Running the calls of one more stretch of log from a point where
    nothing is held. *)
Lemma jni_run_idle (l evs : list event) :
  jni_run Idle l = Some Idle ->
  jni_run Idle (l ++ evs) = jni_run Idle evs.
Proof. intros H. now rewrite jni_run_app, H. Qed.

(** The first loop keeps the discipline: at any point it holds at most
    one reference and one string, and nothing when it ends. *)
Lemma size_pass_discipline (w : world) (arguments : list jstring) :
  forall (i c : Z) (m : machine),
    jni_run Idle (log m) = Some Idle ->
    exists st,
      jni_run Idle (log (snd (size_pass w i arguments c m))) = Some st /\
      forall r, fst (size_pass w i arguments c m) = Done r -> st = Idle.
Proof.
  induction arguments as [|arg rest IH]; intros i c m Hm.
  - exists Idle. split; [exact Hm|reflexivity].
  - rewrite size_pass_cons.
    destruct (GetStringUTFChars w SizePass arg) as [s|].
    + apply IH. unfold logged. cbn [log]. rewrite (jni_run_idle _ _ Hm).
      do 2 (cbn [jni_run jni_step]; rewrite ?Z.eqb_refl). reflexivity.
    + exists (Chars arg). split; [|discriminate].
      unfold logged. cbn [log snd]. now rewrite (jni_run_idle _ _ Hm).
Qed.

(** So does the second loop, whose [memcpy] reads the characters while
    they are held. *)
Lemma copy_pass_discipline (w : world) (arguments : list jstring) :
  forall (i current : Z) (argv : list Z) (m : machine),
    jni_run Idle (log m) = Some Idle ->
    exists st,
      jni_run Idle (log (snd (copy_pass w i arguments current argv m))) = Some st /\
      forall r, fst (copy_pass w i arguments current argv m) = Done r -> st = Idle.
Proof.
  induction arguments as [|arg rest IH]; intros i current argv m Hm.
  - exists Idle. split; [exact Hm|reflexivity].
  - rewrite copy_pass_cons.
    destruct (GetStringUTFChars w CopyPass arg) as [s|].
    2:{ exists (Chars arg). split; [|discriminate].
        unfold logged. cbn [log snd]. now rewrite (jni_run_idle _ _ Hm). }
    cbv zeta. destruct (heap m) as [b|].
    2:{ exists (Chars arg). split; [|discriminate].
        unfold logged. cbn [log snd]. now rewrite (jni_run_idle _ _ Hm). }
    destruct (bool_decide _).
    2:{ exists (Chars arg). split; [|discriminate].
        unfold logged. cbn [log snd]. now rewrite (jni_run_idle _ _ Hm). }
    destruct (bool_decide _).
    2:{ exists (Chars arg). split; [|discriminate].
        unfold stored. cbn [log snd]. now rewrite (jni_run_idle _ _ Hm). }
    apply IH. unfold stored. cbn [log]. rewrite (jni_run_idle _ _ Hm).
    do 2 (cbn [app jni_run jni_step]; rewrite ?Z.eqb_refl). reflexivity.
Qed.

(** The discipline is not empty: an allocation while a reference is held
    breaks it, and so does a second fetch. *)
Example jni_run_rejects :
  jni_run Idle [EGetObjectArrayElement SizePass 0; ECalloc 0 4096] = None /\
  jni_run Idle [EGetObjectArrayElement SizePass 0;
                EGetObjectArrayElement SizePass 1] = None.
Proof. split; reflexivity. Qed.

Example jni_run_sample :
  jni_run Idle (log (snd (startNodeWithArguments sample_world [1; 2] boot)))
  = Some Idle /\
  jni_run Idle (log (snd (startNodeWithArguments flaky_world [1] boot)))
  = Some (Chars 1).
Proof. split; vm_compute; reflexivity. Qed.

(** In every run, from its first call to its last, the function holds at
    most one local reference and the characters of at most one string:
    each string is acquired after its reference, copied from only while
    held, released before its reference is deleted, and both are gone
    before the next argument is fetched and before [calloc],
    [node::Start] and [free] are called.  A run that returns holds
    nothing at the end; a run that faults holds at most the one
    reference and string it was working on. *)
Theorem jni_discipline (w : world) (arguments : list jstring) :
  exists st,
    jni_run Idle (log (snd (startNodeWithArguments w arguments boot))) = Some st /\
    forall k, fst (startNodeWithArguments w arguments boot) = Done k -> st = Idle.
Proof.
  rewrite start_unfold, marshal_unfold.
  destruct (size_pass_discipline w arguments 0 0 (logged boot [EGetArrayLength]) eq_refl)
    as (st1 & Hrun1 & Hdone1).
  destruct (size_pass w 0 arguments 0 (logged boot [EGetArrayLength])) as [[c|f] m1];
    [|exists st1; split; [exact Hrun1|discriminate]].
  simpl in Hrun1, Hdone1. rewrite (Hdone1 c eq_refl) in Hrun1. cbv zeta.
  match goal with
  | |- context [copy_pass w 0 arguments ?b ?a ?m2] =>
      assert (Hm2 : jni_run Idle (log m2) = Some Idle);
      [|destruct (copy_pass_discipline w arguments 0 b a m2 Hm2)
          as (st2 & Hrun2 & Hdone2);
        destruct (copy_pass w 0 arguments b a m2) as [[r|f] m3]]
  end.
  - unfold after_calloc.
    destruct (libc_calloc w (to_size_t c)); cbn [snd log];
      now rewrite (jni_run_idle _ _ Hrun1).
  - simpl in Hrun2, Hdone2. rewrite (Hdone2 r eq_refl) in Hrun2.
    exists Idle. split; [|reflexivity].
    cbn [snd log]. now rewrite (jni_run_idle _ _ Hrun2).
  - exists st2. split; [exact Hrun2|discriminate].
Qed.

(** ** The elements a run visits: facts *)

Lemma size_pass_visits (w : world) (arguments : list jstring) :
  forall (i c : Z) (m m' : machine) (r : Z),
    size_pass w i arguments c m = (Done r, m') ->
    fetches (log m')
    = fetches (log m) ++ map (pair SizePass) (seqZ i (Z.of_nat (length arguments))) /\
    conversions (log m') = conversions (log m) ++ map (pair SizePass) arguments.
Proof.
  induction arguments as [|arg rest IH]; intros i c m m' r H.
  - injection H as _ <-. simpl. now rewrite !app_nil_r.
  - rewrite size_pass_cons in H.
    destruct (GetStringUTFChars w SizePass arg); [|discriminate].
    apply IH in H as [Hf Hc]. rewrite Hf, Hc. unfold logged. cbn [log].
    unfold fetches, conversions. rewrite !omap_app, <- !app_assoc.
    rewrite (seqZ_cons i (Z.of_nat (length (arg :: rest))))
      by (simpl length; lia).
    replace (Z.pred (Z.of_nat (length (arg :: rest))))
      with (Z.of_nat (length rest)) by (simpl length; lia).
    split; reflexivity.
Qed.

Lemma copy_pass_visits (w : world) (arguments : list jstring) :
  forall (i current : Z) (argv : list Z) (m m' : machine) (r : Z * list Z),
    copy_pass w i arguments current argv m = (Done r, m') ->
    fetches (log m')
    = fetches (log m) ++ map (pair CopyPass) (seqZ i (Z.of_nat (length arguments))) /\
    conversions (log m') = conversions (log m) ++ map (pair CopyPass) arguments.
Proof.
  induction arguments as [|arg rest IH]; intros i current argv m m' r H.
  - injection H as _ <-. simpl. now rewrite !app_nil_r.
  - rewrite copy_pass_cons in H.
    destruct (GetStringUTFChars w CopyPass arg); [|discriminate].
    cbv zeta in H. destruct (heap m); [|discriminate].
    destruct (bool_decide _); [|discriminate].
    destruct (bool_decide _); [|discriminate].
    apply IH in H as [Hf Hc]. rewrite Hf, Hc. unfold stored. cbn [log].
    unfold fetches, conversions. rewrite !omap_app, <- !app_assoc.
    rewrite (seqZ_cons i (Z.of_nat (length (arg :: rest))))
      by (simpl length; lia).
    replace (Z.pred (Z.of_nat (length (arg :: rest))))
      with (Z.of_nat (length rest)) by (simpl length; lia).
    split; reflexivity.
Qed.

(** A run that returns has fetched every element of the array exactly
    once in each loop, by increasing index from 0 to N - 1, first in the
    size loop and then in the copy loop, and has converted exactly the
    references of the array, in the order of the array, once in each
    loop. *)
Theorem visits_in_order (w : world) (arguments : list jstring) (k : Z) :
  fst (startNodeWithArguments w arguments boot) = Done k ->
  fetches (log (snd (startNodeWithArguments w arguments boot)))
  = map (pair SizePass) (seqZ 0 (Z.of_nat (length arguments)))
    ++ map (pair CopyPass) (seqZ 0 (Z.of_nat (length arguments))) /\
  conversions (log (snd (startNodeWithArguments w arguments boot)))
  = map (pair SizePass) arguments ++ map (pair CopyPass) arguments.
Proof.
  rewrite start_unfold, marshal_unfold.
  destruct (size_pass w 0 arguments 0 (logged boot [EGetArrayLength]))
    as [[c|f] m1] eqn:E1; [|discriminate].
  apply size_pass_visits in E1 as [Hf1 Hc1]. cbv zeta.
  destruct (copy_pass _ _ _ _ _ _) as [[r|f] m3] eqn:E2; [|discriminate].
  apply copy_pass_visits in E2 as [Hf2 Hc2]. intros _. cbn [snd log].
  assert (Hcal : forall n,
             fetches (log (snd (after_calloc w n m1))) = fetches (log m1) /\
             conversions (log (snd (after_calloc w n m1))) = conversions (log m1)).
  { intros n. unfold after_calloc, fetches, conversions.
    destruct (libc_calloc w n); cbn [snd log]; rewrite !omap_app;
      simpl; now rewrite !app_nil_r. }
  destruct (Hcal (to_size_t c)) as [Hf0 Hc0].
  unfold fetches, conversions in *. rewrite !omap_app.
  rewrite Hf2, Hc2, Hf0, Hc0, Hf1, Hc1. simpl. now rewrite !app_nil_r.
Qed.

Lemma visits_in_order_witness :
  fetches (log (snd (startNodeWithArguments sample_world [1; 2] boot)))
  = map (pair SizePass) (seqZ 0 (Z.of_nat (length [1; 2])))
    ++ map (pair CopyPass) (seqZ 0 (Z.of_nat (length [1; 2]))) /\
  conversions (log (snd (startNodeWithArguments sample_world [1; 2] boot)))
  = map (pair SizePass) [1; 2] ++ map (pair CopyPass) [1; 2].
Proof.
  apply (visits_in_order sample_world [1; 2] 2). vm_compute. reflexivity.
Defined.
